(** * A singly linked list of [int] over an explicit heap

    Shallow embedding of [class LinkedList] of [src/main.cpp].

    The class keeps raw [Node*] pointers, so the embedding keeps the heap:
    a finite map from addresses to [Node] records.  [nullptr] is address 0.
    Every method is a program of a small state-and-error monad over the
    machine state (heap, the two fields of the object, the two output
    streams).  An outcome is a normal return, a C++ exception, undefined
    behaviour (a dereference or a [delete] of an address that holds no
    node), or divergence (a pointer-chasing [while] loop that never reaches
    [nullptr]). *)

From stdpp Require Import base gmap list strings pretty.

Module LinkedList.

Open Scope N_scope.

(** ** Machine data *)

(** A pointer is an address; [size_t] and pointers are 64 bits wide. *)
Abbreviation ptr := N (only parsing).

Definition nullptr : ptr := 0.

Abbreviation SIZE_MOD := (2 ^ 64) (only parsing).

(** [++n] and [--n] on a [size_t]. *)
Definition size_incr (n : N) : N := (n + 1) mod SIZE_MOD.
Definition size_decr (n : N) : N := (n + (SIZE_MOD - 1)) mod SIZE_MOD.
Global Arguments size_incr : simpl never.
Global Arguments size_decr : simpl never.

(** [struct Node { int value; Node* next; }].  The class stores, compares
    and prints values and does no arithmetic on them: an [int] is a [Z]. *)
Record Node := mkNode { value : Z; next : ptr }.

(** The exceptions the class can let escape: [std::out_of_range] with its
    [what()] text, and [std::bad_alloc] from [new]. *)
Inductive exn :=
| out_of_range (what : string)
| bad_alloc.

(** The machine state: the heap of nodes, the fields [head] and [length] of
    the list object, the text written so far to [std::cout] and [std::cerr],
    and the log of addresses handed to [delete], oldest first. *)
Record state := mkState {
  heap : gmap N Node;
  head : ptr;
  length : N;
  cout : string;
  cerr : string;
  released : list N
}.

Inductive outcome (A : Type) :=
| Ret (a : A) (s : state)
| Throw (e : exn) (s : state)
| Undefined
| Diverges.
Arguments Ret {A} a s.
Arguments Throw {A} e s.
Arguments Undefined {A}.
Arguments Diverges {A}.

Definition M (A : Type) : Type := state -> outcome A.

Definition ret {A} (a : A) : M A := fun s => Ret a s.

Definition bind {A B} (m : M A) (k : A -> M B) : M B :=
  fun s =>
    match m s with
    | Ret a s' => k a s'
    | Throw e s' => Throw e s'
    | Undefined => Undefined
    | Diverges => Diverges
    end.

Notation "x <- m ;; k" := (bind m (fun x => k))
  (at level 100, m at next level, right associativity).
Notation "m ;;; k" := (bind m (fun _ => k))
  (at level 100, right associativity).

Definition throw {A} (e : exn) : M A := fun s => Throw e s.
Definition diverge {A} : M A := fun _ => Diverges.

(** The state an outcome leaves behind, when there is one. *)
Definition final {A} (o : outcome A) : option state :=
  match o with
  | Ret _ s | Throw _ s => Some s
  | Undefined | Diverges => None
  end.

(** ** Primitive actions *)

Definition load_head : M N := fun s => Ret (head s) s.
Definition load_length : M N := fun s => Ret (length s) s.

Definition store_head (p : ptr) : M unit := fun s =>
  Ret tt (mkState (heap s) p (length s) (cout s) (cerr s) (released s)).

Definition store_length (n : N) : M unit := fun s =>
  Ret tt (mkState (heap s) (head s) n (cout s) (cerr s) (released s)).

Definition set_heap (h : gmap N Node) (s : state) : state :=
  mkState h (head s) (length s) (cout s) (cerr s) (released s).

(** [*p]: reading through a pointer that holds no node is undefined. *)
Definition deref (p : ptr) : M Node := fun s =>
  match heap s !! p with
  | Some nd => Ret nd s
  | None => Undefined
  end.

(** [p->next = q] *)
Definition store_next (p q : ptr) : M unit := fun s =>
  match heap s !! p with
  | Some nd => Ret tt (set_heap (<[p := mkNode (value nd) q]> (heap s)) s)
  | None => Undefined
  end.

(** [delete p]: a no-op on [nullptr], undefined on an address that holds no
    node (a dangling pointer or a second release); otherwise the node is
    gone and the address is logged. *)
Definition delete_node (p : ptr) : M unit := fun s =>
  if p =? nullptr then Ret tt s
  else match heap s !! p with
       | Some _ =>
           Ret tt (mkState (delete p (heap s)) (head s) (length s)
                           (cout s) (cerr s) (released s ++ [p]))
       | None => Undefined
       end.

Definition incr_length : M unit := n <- load_length ;; store_length (size_incr n).
Definition decr_length : M unit := n <- load_length ;; store_length (size_decr n).

Definition newline : string := String (Ascii.ascii_of_nat 10) EmptyString.

(** [std::cout << t] and [std::cerr << t] *)
Definition emit_cout (t : string) (s : state) : state :=
  mkState (heap s) (head s) (length s) (cout s +:+ t) (cerr s) (released s).

Definition emit_cerr (t : string) (s : state) : state :=
  mkState (heap s) (head s) (length s) (cout s) (cerr s +:+ t) (released s).

Definition write_cout (t : string) : M unit := fun s => Ret tt (emit_cout t s).
Definition write_cerr (t : string) : M unit := fun s => Ret tt (emit_cerr t s).

(** A [while] loop that follows [next] pointers either leaves within
    [size heap] steps or has come back to a node it already visited and
    never leaves.  Each such loop gets this many iterations, plus one for
    the final test. *)
Definition loop_bound : M nat := fun s => Ret (S (size (heap s))) s.

(** ** The diagnostics *)

Definition msg_index_out_of_range : string := "Index out of range".
Definition err_delete_at_empty : string := "Error: delete_at on empty list" +:+ newline.
Definition err_index_out_of_range : string := "Error: index out of range" +:+ newline.
Definition err_delete_value_empty : string := "Error: delete_value on empty list" +:+ newline.
Definition info_value_not_found : string := "Info: value not found" +:+ newline.

(** The three kinds of diagnostic of the two deleting methods. *)
Inductive category := EmptyList | IndexOutOfRange | NotFound.

Definition category_of (t : string) : option category :=
  if decide (t = err_delete_at_empty) then Some EmptyList
  else if decide (t = err_delete_value_empty) then Some EmptyList
  else if decide (t = err_index_out_of_range) then Some IndexOutOfRange
  else if decide (t = info_value_not_found) then Some NotFound
  else None.

(** ** An allocator

    [pick_free] is one allocator that meets the contract of [new] stated
    below: it picks an address that is neither [nullptr] nor in use, and
    gives up when that address does not fit a pointer. *)
Definition pick_free (h : gmap N Node) : option N :=
  let a := fresh ({[nullptr]} ∪ dom h) in
  if a <? SIZE_MOD then Some a else None.

(** What the methods assume of [new]: the address it returns is not in use,
    is not [nullptr] and fits a pointer. *)
Definition allocator_ok (alloc : gmap N Node -> option N) : Prop :=
  ∀ h a, alloc h = Some a → h !! a = None ∧ 0 < a ∧ a < SIZE_MOD.

(** ** The methods *)

Section Methods.

(** [new Node(v)] asks the allocator for an address; [None] is
    [std::bad_alloc]. *)
Variable alloc : gmap N Node -> option N.

(** [new Node(v)]: the constructor sets [value(v), next(nullptr)]. *)
Definition new_node (v : Z) : M N := fun s =>
  match alloc (heap s) with
  | Some a => Ret a (set_heap (<[a := mkNode v nullptr]> (heap s)) s)
  | None => Throw bad_alloc s
  end.

(** [LinkedList() : head(nullptr), length(0) {}] *)
Definition LinkedList : M unit := store_head nullptr ;;; store_length 0.

(** [for (size_t i = 0; i < index; ++i) curr = curr->next;] *)
Fixpoint get_node_loop (n : nat) (curr : ptr) : M N :=
  match n with
  | O => ret curr
  | S n' => nd <- deref curr ;; get_node_loop n' (next nd)
  end.

Definition get_node (index : N) : M N :=
  len <- load_length ;;
  if len <=? index then throw (out_of_range msg_index_out_of_range)
  else
    curr <- load_head ;;
    get_node_loop (N.to_nat index) curr.

Definition size : M N := load_length.

Definition empty : M bool := len <- load_length ;; ret (len =? 0).

Definition push_front (v : Z) : M unit :=
  node <- new_node v ;;
  hd <- load_head ;;
  store_next node hd ;;;
  store_head node ;;;
  incr_length.

(** [while (tail->next) tail = tail->next;] *)
Fixpoint push_back_loop (fuel : nat) (tail : ptr) : M N :=
  match fuel with
  | O => diverge
  | S fuel' =>
      nd <- deref tail ;;
      if next nd =? nullptr then ret tail
      else push_back_loop fuel' (next nd)
  end.

Definition push_back (v : Z) : M unit :=
  node <- new_node v ;;
  hd <- load_head ;;
  (if hd =? nullptr then store_head node
   else
     fuel <- loop_bound ;;
     tail <- push_back_loop fuel hd ;;
     store_next tail node) ;;;
  incr_length.

Definition insert_at (index : N) (v : Z) : M unit :=
  len <- load_length ;;
  if len <? index then throw (out_of_range msg_index_out_of_range)
  else if index =? 0 then push_front v
  else if index =? len then push_back v
  else
    prev <- get_node (size_decr index) ;;
    node <- new_node v ;;
    pn <- deref prev ;;
    store_next node (next pn) ;;;
    store_next prev node ;;;
    incr_length.

Definition delete_at (index : N) : M bool :=
  e <- empty ;;
  if e then write_cerr err_delete_at_empty ;;; ret false
  else
    len <- load_length ;;
    if len <=? index then write_cerr err_index_out_of_range ;;; ret false
    else if index =? 0 then
      old <- load_head ;;
      hn <- deref old ;;
      store_head (next hn) ;;;
      delete_node old ;;;
      decr_length ;;;
      ret true
    else
      prev <- get_node (size_decr index) ;;
      pn <- deref prev ;;
      let target := next pn in
      tn <- deref target ;;
      store_next prev (next tn) ;;;
      delete_node target ;;;
      decr_length ;;;
      ret true.

(** The [while (curr)] loop of [delete_value]; [true] is the [return true]
    inside the loop, [false] is the loop running off the end. *)
Fixpoint delete_value_loop (fuel : nat) (v : Z) (prev curr : ptr) : M bool :=
  match fuel with
  | O => diverge
  | S fuel' =>
      if curr =? nullptr then ret false
      else
        cn <- deref curr ;;
        if (value cn =? v)%Z then
          store_next prev (next cn) ;;;
          delete_node curr ;;;
          decr_length ;;;
          ret true
        else delete_value_loop fuel' v curr (next cn)
  end.

Definition delete_value (v : Z) : M bool :=
  e <- empty ;;
  if e then write_cerr err_delete_value_empty ;;; ret false
  else
    hd <- load_head ;;
    hn <- deref hd ;;
    if (value hn =? v)%Z then
      store_head (next hn) ;;;
      delete_node hd ;;;
      decr_length ;;;
      ret true
    else
      fuel <- loop_bound ;;
      found <- delete_value_loop fuel v hd (next hn) ;;
      if found then ret true
      else write_cerr info_value_not_found ;;; ret false.

(** The [while (curr)] loop of [print]. *)
Fixpoint print_loop (fuel : nat) (curr : ptr) : M unit :=
  match fuel with
  | O => diverge
  | S fuel' =>
      if curr =? nullptr then ret tt
      else
        cn <- deref curr ;;
        write_cout (pretty (value cn)) ;;;
        (if next cn =? nullptr then ret tt else write_cout " -> ") ;;;
        print_loop fuel' (next cn)
  end.

Definition print : M unit :=
  write_cout "[" ;;;
  curr <- load_head ;;
  fuel <- loop_bound ;;
  print_loop fuel curr ;;;
  len <- load_length ;;
  write_cout "] (size=" ;;;
  write_cout (pretty len) ;;;
  write_cout (")" +:+ newline).

(** The destructor.  [delete curr] is one call that returns before the next
    iteration: [Node] declares no destructor, so releasing a node does not
    touch its successor.  The loop reports the deepest nesting of calls it
    made below its own frame. *)
Definition delete_call_depth : nat := 1.

Fixpoint destructor_loop (fuel : nat) (curr : ptr) (depth : nat) : M nat :=
  match fuel with
  | O => diverge
  | S fuel' =>
      if curr =? nullptr then ret depth
      else
        cn <- deref curr ;;
        let nxt := next cn in
        delete_node curr ;;;
        destructor_loop fuel' nxt (Nat.max depth delete_call_depth)
  end.

Definition destructor : M nat :=
  curr <- load_head ;;
  fuel <- loop_bound ;;
  destructor_loop fuel curr O.

End Methods.

(** ** A caller

    A caller issues the public operations one after the other and, like
    [main], catches what they throw.  An insertion is successful when the
    method returns; a deletion is successful when it returns [true]. *)
Inductive call :=
| PushFront (v : Z)
| PushBack (v : Z)
| InsertAt (index : N) (v : Z)
| DeleteAt (index : N)
| DeleteValue (v : Z)
| Print.

Inductive effect := Inserted | Deleted | NoChange.

Definition inserting (o : outcome unit) : option (effect * state) :=
  match o with
  | Ret _ s => Some (Inserted, s)
  | Throw _ s => Some (NoChange, s)
  | Undefined | Diverges => None
  end.

Definition deleting (o : outcome bool) : option (effect * state) :=
  match o with
  | Ret true s => Some (Deleted, s)
  | Ret false s => Some (NoChange, s)
  | Throw _ s => Some (NoChange, s)
  | Undefined | Diverges => None
  end.

Definition observing (o : outcome unit) : option (effect * state) :=
  match o with
  | Ret _ s | Throw _ s => Some (NoChange, s)
  | Undefined | Diverges => None
  end.

Record tally := mkTally { insertions : nat; deletions : nat }.

Definition count (e : effect) (t : tally) : tally :=
  match e with
  | Inserted => mkTally (S (insertions t)) (deletions t)
  | Deleted => mkTally (insertions t) (S (deletions t))
  | NoChange => t
  end.

Section Caller.

Variable alloc : gmap N Node -> option N.

Definition perform (c : call) (s : state) : option (effect * state) :=
  match c with
  | PushFront v => inserting (push_front alloc v s)
  | PushBack v => inserting (push_back alloc v s)
  | InsertAt index v => inserting (insert_at alloc index v s)
  | DeleteAt index => deleting (delete_at index s)
  | DeleteValue v => deleting (delete_value v s)
  | Print => observing (print s)
  end.

Fixpoint run (cs : list call) (t : tally) (s : state) : option (tally * state) :=
  match cs with
  | [] => Some (t, s)
  | c :: cs' =>
      match perform c s with
      | Some (e, s') => run cs' (count e t) s'
      | None => None
      end
  end.

End Caller.

(** ** What a state represents *)

(** [lseg h p q cells]: following [next] from [p] visits exactly the nodes
    [cells] (address and value, in order) and then arrives at [q]. *)
Fixpoint lseg (h : gmap N Node) (p q : N) (cells : list (N * Z)) : Prop :=
  match cells with
  | [] => p = q
  | (a, v) :: rest =>
      p = a ∧ a ≠ nullptr ∧ ∃ nx, h !! a = Some (mkNode v nx) ∧ lseg h nx q rest
  end.

(** The invariants of the class, for a state whose list holds [cells]. *)
Record Inv (s : state) (cells : list (N * Z)) : Prop := mkInv {
  (** the nodes reachable from [head] are [cells], and the last one's
      successor is [nullptr] *)
  inv_chain : lseg (heap s) (head s) nullptr cells;
  (** [length] is their number *)
  inv_count : length s = N.of_nat (List.length cells);
  (** no node occurs twice *)
  inv_acyclic : NoDup cells.*1;
  (** [head] is [nullptr] exactly when [length] is 0 *)
  inv_head : head s = nullptr ↔ length s = 0;
  (** every node sits at a 64-bit address *)
  inv_addr : Forall (λ a, a < SIZE_MOD) cells.*1
}.

Definition well_formed (s : state) : Prop := ∃ cells, Inv s cells.

(** The values held by the list, read off the heap: [None] when the walk
    from [head] meets an address without a node or does not end. *)
Fixpoint walk (fuel : nat) (h : gmap N Node) (p : N) : option (list Z) :=
  match fuel with
  | O => None
  | S fuel' =>
      if p =? nullptr then Some []
      else match h !! p with
           | Some nd => cons (value nd) <$> walk fuel' h (next nd)
           | None => None
           end
  end.

Definition values (s : state) : option (list Z) :=
  walk (S (base.size (heap s))) (heap s) (head s).

(** A list of values in the format of [print], up to the closing newline. *)
Fixpoint arrows (vs : list Z) : string :=
  match vs with
  | [] => EmptyString
  | [v] => pretty v
  | v :: vs' => pretty v +:+ " -> " +:+ arrows vs'
  end.

Definition rendering (vs : list Z) : string :=
  "[" +:+ arrows vs +:+ "] (size=" +:+ pretty (N.of_nat (List.length vs)) +:+ ")".

(** The streams and the release log are the same in both states. *)
Definition same_streams (s s' : state) : Prop :=
  cout s' = cout s ∧ cerr s' = cerr s ∧ released s' = released s.

(** The list itself is the same in both states. *)
Definition same_list (s s' : state) : Prop :=
  heap s' = heap s ∧ head s' = head s ∧ length s' = length s.

(** [h'] is [h] except, possibly, at the addresses [l]. *)
Definition agree_outside (l : list N) (h h' : gmap N Node) : Prop :=
  ∀ x, x ∉ l → h' !! x = h !! x.

(** The list of [s] holds [cells], and the rest of the heap is exactly [F]:
    the nodes of the list are not in [F], and every other address holds in
    the heap what it holds in [F]. *)
Definition framed (F : gmap N Node) (s : state) (cells : list (N * Z)) : Prop :=
  Inv s cells
  ∧ (∀ x, x ∈ cells.*1 → F !! x = None)
  ∧ (∀ x, x ∉ cells.*1 → heap s !! x = F !! x).

(** ** Several lists in one heap

    The fields [head] and [length] of the state are those of the object a
    method runs on.  A caller that keeps several lists keeps each one's
    fields in an [object] and hands them to the method it calls. *)
Record object := mkObject { obj_head : N; obj_length : N }.


Definition set_this (o : object) (s : state) : state :=
  mkState (heap s) (obj_head o) (obj_length o) (cout s) (cerr s) (released s).







Section Driver.

Variable alloc : gmap N Node -> option N.

(** [ex.what()] of a [std::bad_alloc] is left to the implementation. *)
Variable bad_alloc_what : string.

Definition what (e : exn) : string :=
  match e with
  | out_of_range w => w
  | bad_alloc => bad_alloc_what
  end.


End Driver.




(** ** The list of values as a model

    What each call does to the sequence of values, given the effect the
    call reported. *)
Fixpoint remove_first (v : Z) (vs : list Z) : list Z :=
  match vs with
  | [] => []
  | x :: vs' => if decide (x = v) then vs' else x :: remove_first v vs'
  end.

Definition list_step (c : call) (e : effect) (vs : list Z) : list Z :=
  match c, e with
  | PushFront v, Inserted => v :: vs
  | PushBack v, Inserted => vs ++ [v]
  | InsertAt index v, Inserted => take (N.to_nat index) vs ++ v :: drop (N.to_nat index) vs
  | DeleteAt index, Deleted => take (N.to_nat index) vs ++ drop (S (N.to_nat index)) vs
  | DeleteValue v, Deleted => remove_first v vs
  | _, _ => vs
  end.

(** The effects a call may report on a list of values: a deletion is
    decided by the values; an insertion in range happens unless [new] fails. *)
Definition may_report (c : call) (e : effect) (vs : list Z) : Prop :=
  match c with
  | PushFront _ | PushBack _ => e = Inserted ∨ e = NoChange
  | InsertAt index _ =>
      if decide (N.of_nat (List.length vs) < index) then e = NoChange
      else e = Inserted ∨ e = NoChange
  | DeleteAt index =>
      e = if decide (index < N.of_nat (List.length vs)) then Deleted else NoChange
  | DeleteValue v => e = if decide (v ∈ vs) then Deleted else NoChange
  | Print => e = NoChange
  end.

Global Instance effect_eq_dec : EqDecision effect.
Proof. solve_decision. Defined.

Global Instance may_report_dec c e vs : Decision (may_report c e vs).
Proof. destruct c; simpl; try case_decide; apply _. Defined.

(** A run of the model along the effects reported, checking each one. *)
Fixpoint list_run (cs : list call) (es : list effect) (vs : list Z) : option (list Z) :=
  match cs, es with
  | [], [] => Some vs
  | c :: cs', e :: es' =>
      if decide (may_report c e vs) then list_run cs' es' (list_step c e vs) else None
  | _, _ => None
  end.

Section Trace.

Variable alloc : gmap N Node -> option N.

(** [run], keeping the effect of every call. *)
Fixpoint run_trace (cs : list call) (s : state) : option (list effect * state) :=
  match cs with
  | [] => Some ([], s)
  | c :: cs' =>
      match perform alloc c s with
      | Some (e, s') =>
          match run_trace cs' s' with
          | Some (es, s'') => Some (e :: es, s'')
          | None => None
          end
      | None => None
      end
  end.

End Trace.

(** ** Sample states *)

(** A freshly constructed list in an empty heap. *)
Definition start : state := mkState ∅ nullptr 0 EmptyString EmptyString [].

(** The list 5, 10, 20 as [push_back(10); push_back(20); push_front(5)]
    builds it with [pick_free]. *)
Definition sample : state :=
  mkState (<[3 := mkNode 5 1]> (<[2 := mkNode 20 nullptr]> (<[1 := mkNode 10 2]> ∅)))
          3 3 EmptyString EmptyString [].

Definition sample_cells : list (N * Z) := [(3, 5%Z); (1, 10%Z); (2, 20%Z)].

Definition sample_calls : list call :=
  [PushBack 10; PushBack 20; PushFront 5; DeleteAt 1; InsertAt 7 1;
   DeleteValue 42; InsertAt 1 2; DeleteValue 5; Print].

(** Two lists in one heap: the list 5, 10, 20 of [sample] and, kept in
    [other_list], the list 1, 3. *)
Definition shared : state :=
  mkState (<[8 := mkNode 3 nullptr]> (<[7 := mkNode 1 8]> (heap sample)))
          3 3 EmptyString EmptyString [].

Definition other_list : object := mkObject 7 2.

Definition other_cells : list (N * Z) := [(7, 1%Z); (8, 3%Z)].

(** * Properties *)

(** ** Arithmetic of [size_t] *)

Lemma size_incr_small n : n + 1 < SIZE_MOD → size_incr n = n + 1.
Proof. intros H. unfold size_incr. by apply N.mod_small. Qed.

Lemma size_decr_pos n : 0 < n → n < SIZE_MOD → size_decr n = n - 1.
Proof.
  intros H0 H. unfold size_decr.
  replace (n + (2 ^ 64 - 1)) with ((n - 1) + 1 * 2 ^ 64) by lia.
  rewrite N.Div0.mod_add. apply N.mod_small. lia.
Qed.

(** Distinct non-null addresses below a bound are fewer than the bound. *)
Lemma addresses_bounded (b : N) (l : list N) :
  NoDup l → Forall (λ a, 0 < a ∧ a < b) l → N.of_nat (List.length l) + 1 ≤ b ∨ b = 0.
Proof.
  intros Hnd Hall.
  destruct (decide (b = 0)) as [->|Hb]; [by right|left].
  assert (List.length (N.to_nat <$> l) ≤ List.length (seq 1 (N.to_nat b - 1)))%nat as Hle.
  { apply submseteq_length, NoDup_submseteq.
    - apply NoDup_fmap_2; [|done]. intros x y Hxy. lia.
    - intros x Hx. apply list_elem_of_fmap in Hx as (y & -> & Hy).
      rewrite Forall_forall in Hall. apply Hall in Hy.
      apply elem_of_seq. lia. }
  rewrite length_fmap, length_seq in Hle. lia.
Qed.

(** ** Chains of nodes in a heap *)

Lemma lseg_app h p q l1 l2 :
  lseg h p q (l1 ++ l2) ↔ ∃ m, lseg h p m l1 ∧ lseg h m q l2.
Proof.
  revert p. induction l1 as [|[a v] l1 IH]; intros p; simpl.
  - split; [intros H; by exists p | by intros (m & -> & H)].
  - split.
    + intros (-> & Ha & nx & Hnx & Hrest). apply IH in Hrest as (m & H1 & H2).
      exists m. eauto 10.
    + intros (m & (-> & Ha & nx & Hnx & H1) & H2).
      split_and!; [done..|]. exists nx. split; [done|]. apply IH. eauto.
Qed.

Lemma lseg_insert_ne h p q cells a nd :
  a ∉ cells.*1 → lseg h p q cells → lseg (<[a := nd]> h) p q cells.
Proof.
  revert p. induction cells as [|[b v] cells IH]; intros p Hnotin; simpl; [done|].
  intros (-> & Hb & nx & Hnx & Hrest).
  apply not_elem_of_cons in Hnotin as [Hne Hnotin]. simpl in Hne.
  split_and!; [done..|]. exists nx. rewrite lookup_insert_ne by done. eauto.
Qed.

Lemma lseg_delete_ne h p q cells a :
  a ∉ cells.*1 → lseg h p q cells → lseg (delete a h) p q cells.
Proof.
  revert p. induction cells as [|[b v] cells IH]; intros p Hnotin; simpl; [done|].
  intros (-> & Hb & nx & Hnx & Hrest).
  apply not_elem_of_cons in Hnotin as [Hne Hnotin]. simpl in Hne.
  split_and!; [done..|]. exists nx. rewrite lookup_delete_ne by done. eauto.
Qed.

Lemma lseg_allocated h p q cells a :
  lseg h p q cells → a ∈ cells.*1 → a ≠ nullptr ∧ is_Some (h !! a).
Proof.
  revert p. induction cells as [|[b v] cells IH]; intros p; simpl.
  - intros _ Hin. by apply elem_of_nil in Hin.
  - intros (-> & Hb & nx & Hnx & Hrest) Hin.
    apply elem_of_cons in Hin as [->|Hin]; [by eauto|]. eauto.
Qed.

Lemma lseg_fresh h p q cells a : lseg h p q cells → h !! a = None → a ∉ cells.*1.
Proof.
  intros Hseg Hnone Hin. destruct (lseg_allocated _ _ _ _ _ Hseg Hin) as [_ [x Hx]].
  congruence.
Qed.

Lemma lseg_lookup h p q cells (i : nat) a v :
  lseg h p q cells → cells !! i = Some (a, v) →
  ∃ nx, h !! a = Some (mkNode v nx) ∧ lseg h p a (take i cells)
        ∧ lseg h nx q (drop (S i) cells).
Proof.
  revert p i. induction cells as [|[b w] cells IH]; intros p i; simpl; [done|].
  intros (-> & Hb & nx & Hnx & Hrest) Hi. destruct i as [|i]; simpl in *.
  - injection Hi as -> ->. exists nx. by rewrite drop_0.
  - destruct (IH _ _ Hrest Hi) as (nx' & H1 & H2 & H3).
    exists nx'. split; [done|]. split; [|done]. simpl. eauto 10.
Qed.

(** A chain that ends in [nullptr] lies inside the heap, one node per cell. *)
Lemma lseg_length_size h p cells :
  lseg h p nullptr cells → NoDup cells.*1 → (List.length cells ≤ base.size h)%nat.
Proof.
  intros Hseg Hnd.
  rewrite <- (length_fmap fst cells), <- (size_dom (D:=gset N) h).
  rewrite <- (size_list_to_set (C:=gset N) cells.*1) by done.
  apply subseteq_size. intros a Ha. apply elem_of_list_to_set in Ha.
  apply elem_of_dom. by eapply lseg_allocated.
Qed.

(** ** The invariant *)

Lemma Inv_intro s cells :
  lseg (heap s) (head s) nullptr cells →
  length s = N.of_nat (List.length cells) →
  NoDup cells.*1 →
  Forall (λ a, a < SIZE_MOD) cells.*1 →
  Inv s cells.
Proof.
  intros Hseg Hlen Hnd Haddr. split; try done.
  destruct cells as [|[a v] cells]; simpl in *.
  - by rewrite Hlen, <- Hseg.
  - destruct Hseg as (-> & Ha & _). unfold nullptr in *. split; [done | lia].
Qed.

Lemma Inv_nonnull s cells : Inv s cells → Forall (λ a, 0 < a ∧ a < SIZE_MOD) cells.*1.
Proof.
  intros [Hseg _ _ _ Haddr]. rewrite Forall_forall in *. intros a Ha.
  split; [|by apply Haddr].
  destruct (lseg_allocated _ _ _ _ _ Hseg Ha) as [Hne _]. unfold nullptr in Hne. lia.
Qed.

(** [length] fits a [size_t]: the nodes sit at distinct non-null 64-bit
    addresses. *)
Lemma Inv_length_bound s cells : Inv s cells → length s < SIZE_MOD.
Proof.
  intros HI. pose proof (Inv_nonnull _ _ HI) as Hall.
  destruct (addresses_bounded SIZE_MOD cells.*1) as [H|H]; [apply HI|done| |done].
  rewrite length_fmap in H. rewrite (inv_count _ _ HI). lia.
Qed.

(** With one more free address there is room for one more node. *)
Lemma Inv_room s cells a :
  Inv s cells → heap s !! a = None → 0 < a → a < SIZE_MOD →
  length s + 1 < SIZE_MOD.
Proof.
  intros HI Hfree H0 Hlt. pose proof (Inv_nonnull _ _ HI) as Hall.
  destruct (addresses_bounded SIZE_MOD (a :: cells.*1)) as [H|H]; [| |simpl in H|done].
  - apply NoDup_cons. split; [|apply HI]. eapply lseg_fresh; [apply HI|done].
  - by constructor.
  - rewrite length_fmap in H. rewrite (inv_count _ _ HI). lia.
Qed.

Lemma Inv_fuel s cells : Inv s cells → (List.length cells ≤ base.size (heap s))%nat.
Proof. intros HI. eapply lseg_length_size; apply HI. Qed.

Lemma Inv_empty s cells : Inv s cells → length s = 0 → cells = [].
Proof.
  intros HI H0. rewrite (inv_count _ _ HI) in H0. destruct cells; [done|simpl in H0; lia].
Qed.

(** ** Loops and their bound

    More iterations than a loop needs change nothing: an outcome other than
    [Diverges] is the outcome for every larger bound. *)

Lemma push_back_loop_fuel fuel fuel' tail s :
  (fuel ≤ fuel')%nat → push_back_loop fuel tail s ≠ Diverges →
  push_back_loop fuel' tail s = push_back_loop fuel tail s.
Proof.
  revert fuel' tail s. induction fuel as [|fuel IH]; intros fuel' tail s Hle Hend; [by destruct Hend|].
  destruct fuel' as [|fuel']; [lia|]. revert Hend. cbn [push_back_loop].
  unfold bind, deref. destruct (heap s !! tail) as [nd|]; [|done].
  destruct (next nd =? nullptr); [done|]. intros Hend. apply IH; [lia|done].
Qed.

Lemma delete_value_loop_fuel fuel fuel' v prev curr s :
  (fuel ≤ fuel')%nat → delete_value_loop fuel v prev curr s ≠ Diverges →
  delete_value_loop fuel' v prev curr s = delete_value_loop fuel v prev curr s.
Proof.
  revert fuel' prev curr s.
  induction fuel as [|fuel IH]; intros fuel' prev curr s Hle Hend; [by destruct Hend|].
  destruct fuel' as [|fuel']; [lia|]. revert Hend. cbn [delete_value_loop].
  destruct (curr =? nullptr); [done|].
  unfold bind, deref. destruct (heap s !! curr) as [cn|]; [|done].
  destruct (value cn =? v)%Z; [done|]. intros Hend. apply IH; [lia|done].
Qed.

Lemma print_loop_fuel fuel fuel' curr s :
  (fuel ≤ fuel')%nat → print_loop fuel curr s ≠ Diverges →
  print_loop fuel' curr s = print_loop fuel curr s.
Proof.
  revert fuel' curr s. induction fuel as [|fuel IH]; intros fuel' curr s Hle Hend; [by destruct Hend|].
  destruct fuel' as [|fuel']; [lia|]. revert Hend. cbn [print_loop].
  destruct (curr =? nullptr); [done|].
  unfold bind, deref, write_cout, ret. destruct (heap s !! curr) as [cn|]; [|done].
  destruct (next cn =? nullptr); intros Hend; (apply IH; [lia|done]).
Qed.

Lemma destructor_loop_fuel fuel fuel' curr depth s :
  (fuel ≤ fuel')%nat → destructor_loop fuel curr depth s ≠ Diverges →
  destructor_loop fuel' curr depth s = destructor_loop fuel curr depth s.
Proof.
  revert fuel' curr depth s.
  induction fuel as [|fuel IH]; intros fuel' curr depth s Hle Hend; [by destruct Hend|].
  destruct fuel' as [|fuel']; [lia|]. revert Hend. cbn [destructor_loop].
  destruct (curr =? nullptr) eqn:Hnull; [done|].
  unfold bind, deref, delete_node. destruct (heap s !! curr) as [cn|] eqn:Hcn; [|done].
  rewrite Hnull, Hcn. intros Hend. apply IH; [lia|done].
Qed.

(** The constructor makes an empty list, whatever else the heap holds. *)
Lemma LinkedList_spec s :
  ∃ s0, LinkedList s = Ret tt s0 ∧ Inv s0 [] ∧ heap s0 = heap s ∧ same_streams s s0.
Proof.
  eexists. split; [reflexivity|]. split; [|done].
  apply Inv_intro; simpl; [done|done|apply NoDup_nil_2|done].
Qed.

(** ** The methods, one by one *)

Section Specs.

(** Everything below holds for every allocator that meets the contract. *)
Variable alloc : gmap N Node -> option N.
Hypothesis alloc_ok : allocator_ok alloc.

(** Run the straight-line part of a method on the state at hand. *)
Ltac mrun :=
  unfold incr_length, decr_length, empty, size;
  unfold bind, ret, throw, load_head, load_length, store_head, store_length,
    loop_bound, write_cout, write_cerr, set_heap, emit_cout, emit_cerr;
  cbn [heap head length cout cerr released value next].

(** [push_front]: with memory, the new node is the first cell; without,
    [std::bad_alloc] and the state as before. *)
Lemma push_front_spec s cells v :
  Inv s cells →
  match alloc (heap s) with
  | Some a =>
      let s' := mkState (<[a := mkNode v (head s)]> (heap s)) a (length s + 1)
                        (cout s) (cerr s) (released s) in
      push_front alloc v s = Ret tt s' ∧ Inv s' ((a, v) :: cells)
  | None => push_front alloc v s = Throw bad_alloc s
  end.
Proof.
  intros HI. unfold push_front, new_node. mrun.
  destruct (alloc (heap s)) as [a|] eqn:Ha; [|done].
  destruct (alloc_ok _ _ Ha) as (Hfree & H0 & Hlt).
  pose proof (Inv_room _ _ _ HI Hfree H0 Hlt) as Hroom.
  unfold store_next, set_heap. simpl. rewrite lookup_insert_eq. simpl.
  rewrite insert_insert_eq, size_incr_small by done.
  split; [done|].
  assert (a ∉ cells.*1) as Hnotin by (eapply lseg_fresh; [apply HI|done]).
  apply Inv_intro; simpl.
  - split_and!; [done|unfold nullptr; lia|]. eexists. rewrite lookup_insert_eq.
    split; [done|]. apply lseg_insert_ne; [done|apply HI].
  - rewrite (inv_count _ _ HI). lia.
  - apply NoDup_cons. split; [done|apply HI].
  - constructor; [done|apply HI].
Qed.

(** The loop of [push_back] stops at the last node of a non-empty chain. *)
Lemma push_back_loop_spec s fuel p cells b w :
  lseg (heap s) p nullptr (cells ++ [(b, w)]) → (List.length cells < fuel)%nat →
  push_back_loop fuel p s = Ret b s.
Proof.
  revert p fuel. induction cells as [|[a v] cells IH]; intros p fuel; simpl.
  - intros (-> & Hb & nx & Hnx & ->) Hfuel. destruct fuel as [|fuel]; [lia|].
    simpl. unfold bind, deref. by rewrite Hnx.
  - intros (-> & Ha & nx & Hnx & Hrest) Hfuel. destruct fuel as [|fuel]; [lia|].
    simpl. unfold bind, deref. rewrite Hnx. simpl.
    assert (nx ≠ nullptr) as Hne.
    { destruct cells as [|[c u] cells]; simpl in Hrest; by destruct Hrest as (-> & ? & _). }
    apply N.eqb_neq in Hne. rewrite Hne. apply IH; [done|lia].
Qed.

(** [push_back]: with memory, the new node is the last cell. *)
Lemma push_back_spec s cells v :
  Inv s cells →
  match alloc (heap s) with
  | Some a => ∃ s', push_back alloc v s = Ret tt s' ∧ Inv s' (cells ++ [(a, v)])
                    ∧ same_streams s s' ∧ length s' = length s + 1
  | None => push_back alloc v s = Throw bad_alloc s
  end.
Proof.
  intros HI. unfold push_back, new_node. mrun.
  destruct (alloc (heap s)) as [a|] eqn:Ha; [|done].
  destruct (alloc_ok _ _ Ha) as (Hfree & H0 & Hlt).
  pose proof (Inv_room _ _ _ HI Hfree H0 Hlt) as Hroom.
  assert (a ∉ cells.*1) as Hnotin by (eapply lseg_fresh; [apply HI|done]).
  mrun.
  destruct cells as [|c cells _] using rev_ind.
  - pose proof (inv_chain _ _ HI) as Hseg. simpl in Hseg. rewrite Hseg. simpl.
    rewrite size_incr_small by done.
    eexists. split; [done|]. split; [|done].
    apply Inv_intro; simpl.
    + split_and!; [done|unfold nullptr; lia|]. eexists. by rewrite lookup_insert_eq.
    + rewrite (inv_count _ _ HI). simpl. lia.
    + apply NoDup_singleton.
    + by repeat constructor.
  - destruct c as [b w].
    pose proof (inv_chain _ _ HI) as Hseg.
    assert ((head s =? nullptr) = false) as ->.
    { apply N.eqb_neq. destruct cells as [|[c u] cells]; simpl in Hseg; by destruct Hseg as (-> & ? & _). }
    rewrite (push_back_loop_spec _ _ _ cells b w).
    2:{ simpl. apply lseg_insert_ne; [done|]. done. }
    2:{ simpl. pose proof (Inv_fuel _ _ HI) as Hf. rewrite length_app in Hf. simpl in Hf.
        rewrite map_size_insert_None by done. lia. }
    unfold store_next, set_heap. simpl.
    assert (a ≠ b) as Hab.
    { intros ->. apply Hnotin. rewrite fmap_app. apply elem_of_app. right. simpl.
      apply list_elem_of_here. }
    apply lseg_app in Hseg as (m & Hseg1 & Hseg2). simpl in Hseg2.
    destruct Hseg2 as (-> & Hb & nx & Hnx & ->).
    rewrite lookup_insert_ne, Hnx by done. simpl.
    rewrite size_incr_small by done.
    eexists. split; [done|]. split; [|done].
    pose proof (inv_acyclic _ _ HI) as Hnd. rewrite fmap_app in Hnd.
    apply NoDup_app in Hnd as (Hnd1 & Hnd2 & _).
    pose proof Hnotin as Hnotin'.
    rewrite fmap_app in Hnotin'. apply not_elem_of_app in Hnotin' as [Hnotin1 _].
    apply Inv_intro; simpl.
    + rewrite <- app_assoc. apply lseg_app. exists b. split.
      * apply lseg_insert_ne; [|by apply lseg_insert_ne].
        intros Hin. apply (Hnd2 _ Hin). simpl. apply list_elem_of_here.
      * simpl. split_and!; [done..|]. eexists. rewrite lookup_insert_eq. split; [done|].
        split_and!; [done|unfold nullptr; lia|]. eexists.
        rewrite lookup_insert_ne, lookup_insert_eq by done. done.
    + rewrite (inv_count _ _ HI). rewrite !length_app. simpl. lia.
    + rewrite fmap_app. apply NoDup_app. split_and!; [apply HI| |apply NoDup_singleton].
      intros x Hx Hx'. simpl in Hx'. apply list_elem_of_singleton in Hx' as ->. done.
    + rewrite fmap_app. apply Forall_app. split; [apply HI|]. by repeat constructor.
Qed.

(** Linking a fresh node after a cell, unlinking the cell after a cell, and
    dropping the first cell, at the level of the heap. *)
Lemma NoDup_middle (pre : list (N * Z)) b (bv : Z) post :
  NoDup (pre ++ (b, bv) :: post).*1 → (b ∉ pre.*1) ∧ (b ∉ post.*1).
Proof.
  rewrite fmap_app, fmap_cons. intros Hnd.
  apply NoDup_app in Hnd as (_ & Hdisj & Hnd). apply NoDup_cons in Hnd as [Hpost _].
  split; [|done]. intros Hin. apply (Hdisj _ Hin). apply list_elem_of_here.
Qed.

Lemma lseg_link h p pre b bv post a v nx :
  lseg h p nullptr (pre ++ (b, bv) :: post) →
  NoDup (pre ++ (b, bv) :: post).*1 →
  h !! b = Some (mkNode bv nx) →
  h !! a = None → a ≠ nullptr →
  lseg (<[b := mkNode bv a]> (<[a := mkNode v nx]> h)) p nullptr
       (pre ++ (b, bv) :: (a, v) :: post).
Proof.
  intros Hseg Hnd Hb Ha Ha0.
  pose proof (lseg_fresh _ _ _ _ _ Hseg Ha) as Hnotin.
  rewrite fmap_app, fmap_cons in Hnotin.
  apply not_elem_of_app in Hnotin as [Hapre Hapost].
  apply not_elem_of_cons in Hapost as [Hab Hapost]. simpl in Hab.
  destruct (NoDup_middle _ _ _ _ Hnd) as [Hbpre Hbpost]. simpl in *.
  apply lseg_app in Hseg as (m & Hpre & (-> & Hb0 & nx' & Hb' & Hpost)).
  assert (nx' = nx) as -> by congruence.
  apply lseg_app. exists b. split.
  - apply lseg_insert_ne; [done|]. by apply lseg_insert_ne.
  - simpl. split_and!; [done..|]. eexists. rewrite lookup_insert_eq. split; [done|].
    split_and!; [done..|]. eexists. rewrite lookup_insert_ne, lookup_insert_eq by done.
    split; [done|]. apply lseg_insert_ne; [done|]. by apply lseg_insert_ne.
Qed.

Lemma lseg_unlink h p pre b bv a av post :
  lseg h p nullptr (pre ++ (b, bv) :: (a, av) :: post) →
  NoDup (pre ++ (b, bv) :: (a, av) :: post).*1 →
  ∃ nx, h !! b = Some (mkNode bv a) ∧ h !! a = Some (mkNode av nx) ∧
        lseg (delete a (<[b := mkNode bv nx]> h)) p nullptr (pre ++ (b, bv) :: post).
Proof.
  intros Hseg Hnd.
  destruct (NoDup_middle _ _ _ _ Hnd) as [Hbpre Hbpost].
  destruct (NoDup_middle (pre ++ [(b, bv)]) a av post) as [Hapre Hapost].
  { by rewrite <- app_assoc. }
  rewrite fmap_app in Hapre. apply not_elem_of_app in Hapre as [Hapre Hab].
  simpl in *. apply not_elem_of_cons in Hab as [Hab _].
  apply not_elem_of_cons in Hbpost as [_ Hbpost].
  apply lseg_app in Hseg as (m & Hpre & (-> & Hb0 & nx' & Hb & (-> & Ha0 & nx & Ha & Hpost))).
  exists nx. split_and!; [done..|].
  apply lseg_app. exists b. split.
  - apply lseg_delete_ne; [done|]. by apply lseg_insert_ne.
  - simpl. split_and!; [done..|]. eexists.
    rewrite lookup_delete_ne, lookup_insert_eq by done. split; [done|].
    apply lseg_delete_ne; [done|]. by apply lseg_insert_ne.
Qed.

Lemma lseg_pop h a av post :
  lseg h a nullptr ((a, av) :: post) → NoDup ((a, av) :: post).*1 →
  ∃ nx, h !! a = Some (mkNode av nx) ∧ lseg (delete a h) nx nullptr post.
Proof.
  simpl. intros (_ & Ha0 & nx & Ha & Hpost) Hnd. apply NoDup_cons in Hnd as [Hnotin _].
  exists nx. split; [done|]. by apply lseg_delete_ne.
Qed.

(** [get_node] finds the node of the cell at [index]. *)
Lemma get_node_loop_spec s n p q cells a v :
  lseg (heap s) p q cells → cells !! n = Some (a, v) → get_node_loop n p s = Ret a s.
Proof.
  revert p cells. induction n as [|n IH]; intros p [|[b w] cells]; simpl; try done.
  - intros (-> & _) [= -> ->]. done.
  - intros (-> & _ & nx & Hnx & Hrest) Hn. unfold bind, deref. rewrite Hnx. simpl. eauto.
Qed.

Lemma get_node_spec s cells index a v :
  Inv s cells → cells !! N.to_nat index = Some (a, v) → get_node index s = Ret a s.
Proof.
  intros HI Hi. unfold get_node. mrun.
  apply lookup_lt_Some in Hi as Hlt.
  assert ((length s <=? index) = false) as ->.
  { apply N.leb_gt. rewrite (inv_count _ _ HI). lia. }
  eapply get_node_loop_spec; [apply HI|done].
Qed.

Lemma get_node_out_of_range s index :
  length s ≤ index → get_node index s = Throw (out_of_range msg_index_out_of_range) s.
Proof. intros Hle. unfold get_node. mrun. apply N.leb_le in Hle. by rewrite Hle. Qed.


(** [insert_at]: out of range, or the new cell at position [index], or no
    memory. *)
Lemma insert_at_spec s cells index v :
  Inv s cells →
  if decide (length s < index)
  then insert_at alloc index v s = Throw (out_of_range msg_index_out_of_range) s
  else match alloc (heap s) with
       | Some a =>
           ∃ s', insert_at alloc index v s = Ret tt s'
                 ∧ Inv s' (take (N.to_nat index) cells ++ (a, v) :: drop (N.to_nat index) cells)
                 ∧ same_streams s s' ∧ length s' = length s + 1
       | None => insert_at alloc index v s = Throw bad_alloc s
       end.
Proof.
  intros HI. unfold insert_at. mrun.
  pose proof (inv_count _ _ HI) as Hcount.
  pose proof (Inv_length_bound _ _ HI) as Hbound.
  destruct (decide (length s < index)) as [Hgt|Hle].
  { apply N.ltb_lt in Hgt. by rewrite Hgt. }
  assert ((length s <? index) = false) as -> by (apply N.ltb_ge; lia).
  destruct (decide (index = 0)) as [->|Hne0].
  { simpl. pose proof (push_front_spec s cells v HI) as Hpf.
    destruct (alloc (heap s)) as [a|]; [|done]. destruct Hpf as [-> HI'].
    eexists. split; [done|]. by rewrite drop_0. }
  assert ((index =? 0) = false) as -> by (by apply N.eqb_neq).
  destruct (decide (index = length s)) as [->|Hnelen].
  { rewrite N.eqb_refl. pose proof (push_back_spec s cells v HI) as Hpb.
    destruct (alloc (heap s)) as [a|]; [|done]. destruct Hpb as (s' & -> & HI' & Hrest).
    exists s'. split; [done|]. split; [|done].
    rewrite Hcount, Nat2N.id, firstn_all, drop_all. done. }
  assert ((index =? length s) = false) as -> by (by apply N.eqb_neq).
  rewrite size_decr_pos by lia.
  destruct (lookup_lt_is_Some_2 cells (N.to_nat (index - 1))) as [[b bv] Hb]; [lia|].
  rewrite (get_node_spec _ _ _ _ _ HI Hb).
  unfold new_node. destruct (alloc (heap s)) as [a|] eqn:Ha; [|done].
  destruct (alloc_ok _ _ Ha) as (Hfree & H0 & Hlt).
  pose proof (Inv_room _ _ _ HI Hfree H0 Hlt) as Hroom.
  pose proof (inv_chain _ _ HI) as Hseg. pose proof (inv_acyclic _ _ HI) as Hnd.
  rewrite <- (take_drop_middle _ _ _ Hb) in Hseg, Hnd.
  pose proof Hseg as Hseg'.
  apply lseg_app in Hseg' as (m & _ & (-> & Hb0 & nx & Hnx & _)).
  assert (a ≠ b) as Hab by (intros ->; congruence).
  unfold deref, store_next. mrun.
  rewrite lookup_insert_ne, Hnx by done. mrun.
  rewrite lookup_insert_eq. mrun.
  rewrite insert_insert_eq, lookup_insert_ne, Hnx by done. mrun.
  rewrite size_incr_small by done.
  eexists. split; [done|]. split; [|done].
  replace (N.to_nat index) with (S (N.to_nat (index - 1))) by lia.
  rewrite (take_S_r _ _ _ Hb), <- app_assoc. simpl.
  apply Inv_intro; simpl.
  - apply lseg_link; try done. unfold nullptr. lia.
  - rewrite Hcount, length_app. simpl. rewrite length_take, length_drop.
    apply lookup_lt_Some in Hb. lia.
  - rewrite fmap_app, !fmap_cons in *. simpl in *.
    pose proof (lseg_fresh _ _ _ _ _ Hseg Hfree) as Hnotin.
    rewrite fmap_app, fmap_cons in Hnotin. simpl in Hnotin.
    apply not_elem_of_app in Hnotin as [Hapre Hapost].
    apply not_elem_of_cons in Hapost as [_ Hapost].
    apply NoDup_app in Hnd as (Hnd1 & Hdisj & Hnd2).
    apply NoDup_cons in Hnd2 as [Hbpost Hnd2].
    apply NoDup_app. split_and!; [done| |].
    + intros x Hx Hx'. apply elem_of_cons in Hx' as [->|Hx'].
      * apply (Hdisj _ Hx). apply list_elem_of_here.
      * apply elem_of_cons in Hx' as [->|Hx']; [done|].
        apply (Hdisj _ Hx). by apply list_elem_of_further.
    + apply NoDup_cons. split.
      * intros Hin. apply elem_of_cons in Hin as [->|Hin]; [done|done].
      * apply NoDup_cons. done.
  - pose proof (inv_addr _ _ HI) as Haddr.
    rewrite <- (take_drop_middle _ _ _ Hb) in Haddr.
    rewrite fmap_app, !fmap_cons in *. simpl in *.
    apply Forall_app in Haddr as [Hpre Hpost]. apply Forall_cons in Hpost as [Hbb Hpost].
    apply Forall_app. split; [done|]. by repeat constructor.
Qed.


(** Removing one element keeps what holds of all and keeps them distinct. *)
Lemma Forall_remove_middle {A} (P : A → Prop) pre x post :
  Forall P (pre ++ x :: post) → Forall P (pre ++ post).
Proof.
  intros H. apply Forall_app in H as [H1 H2]. apply Forall_cons in H2 as [_ H2].
  by apply Forall_app.
Qed.

Lemma NoDup_remove_middle {A} (pre : list A) x post :
  NoDup (pre ++ x :: post) → NoDup (pre ++ post).
Proof.
  intros (H1 & H2 & H3)%NoDup_app. apply NoDup_cons in H3 as [_ H3].
  apply NoDup_app. split_and!; [done| |done].
  intros y Hy Hy'. apply (H2 y Hy). by apply list_elem_of_further.
Qed.

Lemma NoDup_remove_second {A} (pre : list A) c d post :
  NoDup (pre ++ c :: d :: post) → NoDup (pre ++ c :: post).
Proof.
  rewrite (cons_middle c), app_assoc. intros H%NoDup_remove_middle.
  by rewrite <- app_assoc in H.
Qed.

Lemma Forall_remove_second {A} (P : A → Prop) pre c d post :
  Forall P (pre ++ c :: d :: post) → Forall P (pre ++ c :: post).
Proof.
  rewrite (cons_middle c), app_assoc. intros H%Forall_remove_middle.
  by rewrite <- app_assoc in H.
Qed.

(** [delete_at]: in range, the cell at [index] goes and its node is
    released; otherwise one diagnostic and nothing else. *)
Lemma delete_at_spec s cells index :
  Inv s cells →
  if decide (index < length s)
  then ∃ a av s',
         cells !! N.to_nat index = Some (a, av)
         ∧ delete_at index s = Ret true s'
         ∧ Inv s' (take (N.to_nat index) cells ++ drop (S (N.to_nat index)) cells)
         ∧ length s' = length s - 1
         ∧ cout s' = cout s ∧ cerr s' = cerr s ∧ released s' = released s ++ [a]
  else delete_at index s =
         Ret false (emit_cerr (if length s =? 0 then err_delete_at_empty
                               else err_index_out_of_range) s).
Proof.
  intros HI. unfold delete_at. mrun.
  pose proof (inv_count _ _ HI) as Hcount.
  pose proof (Inv_length_bound _ _ HI) as Hbound.
  pose proof (inv_chain _ _ HI) as Hseg. pose proof (inv_acyclic _ _ HI) as Hnd.
  pose proof (inv_addr _ _ HI) as Haddr.
  destruct (decide (index < length s)) as [Hlt|Hge].
  2:{ destruct (length s =? 0) eqn:He; [done|].
      assert ((length s <=? index) = true) as -> by (apply N.leb_le; lia). done. }
  assert ((length s =? 0) = false) as -> by (apply N.eqb_neq; lia).
  assert ((length s <=? index) = false) as -> by (apply N.leb_gt; lia).
  destruct (decide (index = 0)) as [->|Hne0].
  - simpl. destruct cells as [|[a av] rest]; [simpl in Hcount; lia|].
    destruct (lseg_pop (heap s) a av rest) as (nx & Ha & Hrest); [|done|].
    { simpl in Hseg. destruct Hseg as (_ & Hseg). by split. }
    simpl in Hseg. destruct Hseg as (Hhd & Ha0 & _).
    unfold deref, delete_node. rewrite Hhd, Ha. mrun.
    apply N.eqb_neq in Ha0. rewrite Ha0, Ha. mrun.
    rewrite size_decr_pos by lia.
    exists a, av. eexists. split; [done|]. split; [done|].
    split; [|done].
    apply Inv_intro; simpl; [done| |by apply NoDup_cons in Hnd as [_ ?]|by apply Forall_cons in Haddr as [_ ?]].
    rewrite Hcount. cbn [Datatypes.length]. change (N.to_nat 0) with O. rewrite drop_0. lia.
  - assert ((index =? 0) = false) as -> by (by apply N.eqb_neq).
    rewrite size_decr_pos by lia.
    destruct (lookup_lt_is_Some_2 cells (N.to_nat (index - 1))) as [[b bv] Hb]; [lia|].
    destruct (lookup_lt_is_Some_2 cells (N.to_nat index)) as [[a av] Ha]; [lia|].
    rewrite (get_node_spec _ _ _ _ _ HI Hb).
    assert (cells = take (N.to_nat (index - 1)) cells ++ (b, bv) :: (a, av)
                      :: drop (S (N.to_nat index)) cells) as Hsplit.
    { rewrite <- (take_drop_middle _ _ _ Hb) at 1. do 2 f_equal.
      replace (S (N.to_nat (index - 1))) with (N.to_nat index) by lia.
      by apply drop_S. }
    rewrite Hsplit in Hseg, Hnd, Haddr.
    destruct (lseg_unlink _ _ _ _ _ _ _ _ Hseg Hnd) as (nx & Hhb & Hha & Hseg').
    assert (a ≠ b) as Hab.
    { intros ->. destruct (NoDup_middle _ _ _ _ Hnd) as [_ Hnotin].
      apply Hnotin. simpl. apply list_elem_of_here. }
    assert (a ≠ nullptr) as Ha0.
    { eapply lseg_allocated; [apply (inv_chain _ _ HI)|].
      apply list_elem_of_fmap. exists (a, av). split; [done|]. by eapply list_elem_of_lookup_2. }
    unfold deref, store_next, delete_node. rewrite Hhb. mrun. rewrite Hha, Hhb. mrun.
    apply N.eqb_neq in Ha0. rewrite Ha0, lookup_insert_ne, Hha by done. mrun.
    rewrite size_decr_pos by lia.
    exists a, av. eexists. split; [done|]. split; [done|]. split; [|done].
    replace (N.to_nat index) with (S (N.to_nat (index - 1))) at 1 by lia.
    rewrite (take_S_r _ _ _ Hb), <- app_assoc.
    apply Inv_intro; simpl; [done| | |].
    + rewrite Hcount, length_app. simpl. rewrite length_take, length_drop. lia.
    + rewrite fmap_app, !fmap_cons in *. by eapply NoDup_remove_second.
    + rewrite fmap_app, !fmap_cons in *. by eapply Forall_remove_second.
Qed.


(** The loop of [delete_value] keeps [prev] one node behind [curr]: when it
    finds [v], [prev] is the last node it stepped over. *)
Lemma last_cons {A} (x d : A) l : List.last (x :: l) d = List.last l x.
Proof.
  revert x d. induction l as [|y l IH]; intros x d; [done|].
  change (List.last (x :: y :: l) d) with (List.last (y :: l) d). by rewrite !IH.
Qed.

Lemma delete_value_loop_miss s fuel v b curr rest :
  lseg (heap s) curr nullptr rest → v ∉ rest.*2 → (List.length rest < fuel)%nat →
  delete_value_loop fuel v b curr s = Ret false s.
Proof.
  revert b curr fuel. induction rest as [|[c cv] rest IH]; intros b curr fuel; simpl.
  - intros -> _ Hfuel. destruct fuel as [|fuel]; [lia|]. done.
  - intros (-> & Hc0 & nx & Hc & Hrest) Hnotin Hfuel.
    apply not_elem_of_cons in Hnotin as [Hne Hnotin].
    destruct fuel as [|fuel]; [lia|]. simpl.
    apply N.eqb_neq in Hc0. rewrite Hc0. unfold bind, deref. rewrite Hc. simpl.
    assert ((cv =? v)%Z = false) as -> by (apply Z.eqb_neq; congruence).
    apply IH; [done..|lia].
Qed.

Lemma delete_value_loop_hit s fuel v b bv curr l1 a l2 :
  heap s !! b = Some (mkNode bv curr) →
  lseg (heap s) curr nullptr (l1 ++ (a, v) :: l2) → v ∉ l1.*2 →
  (List.length l1 < fuel)%nat →
  ∃ nx, heap s !! a = Some (mkNode v nx) ∧
    delete_value_loop fuel v b curr s =
      Ret true (mkState (delete a (<[(List.last l1 (b, bv)).1 :=
                                      mkNode (List.last l1 (b, bv)).2 nx]> (heap s)))
                        (head s) (size_decr (length s)) (cout s) (cerr s)
                        (released s ++ [a])).
Proof.
  revert b bv curr fuel. induction l1 as [|[c cv] l1 IH]; intros b bv curr fuel Hb; simpl.
  - intros (-> & Ha0 & nx & Ha & Hrest) _ Hfuel. exists nx. split; [done|].
    destruct fuel as [|fuel]; [lia|]. simpl.
    apply N.eqb_neq in Ha0. rewrite Ha0. unfold deref, store_next, delete_node. mrun.
    rewrite Ha. mrun. rewrite Z.eqb_refl, Hb. mrun. rewrite Ha0.
    assert (is_Some (<[b := mkNode bv nx]> (heap s) !! a)) as [x ->]; [|done].
    rewrite lookup_insert. case_decide; eauto.
  - intros (-> & Hc0 & nx' & Hc & Hrest) Hnotin Hfuel.
    apply not_elem_of_cons in Hnotin as [Hne Hnotin].
    destruct fuel as [|fuel]; [lia|].
    destruct (IH c cv nx' fuel Hc Hrest Hnotin) as (nx & Ha & Hloop); [lia|].
    exists nx. split; [done|].
    cbn [delete_value_loop]. apply N.eqb_neq in Hc0. rewrite Hc0.
    unfold bind at 1. unfold deref. rewrite Hc. cbn [value next].
    assert ((cv =? v)%Z = false) as -> by (apply Z.eqb_neq; congruence).
    rewrite Hloop, <- (last_cons (c, cv) (b, bv) l1). reflexivity.
Qed.

(** [delete_value]: the first cell holding [v] goes; without one, one
    diagnostic and nothing else. *)
Lemma delete_value_spec s cells v :
  Inv s cells →
  (v ∉ cells.*2 →
   delete_value v s =
     Ret false (emit_cerr (if length s =? 0 then err_delete_value_empty
                           else info_value_not_found) s))
  ∧ (∀ pre a post, cells = pre ++ (a, v) :: post → v ∉ pre.*2 →
     ∃ s', delete_value v s = Ret true s' ∧ Inv s' (pre ++ post)
           ∧ length s' = length s - 1
           ∧ cout s' = cout s ∧ cerr s' = cerr s ∧ released s' = released s ++ [a]).
Proof.
  intros HI. unfold delete_value. mrun.
  pose proof (inv_count _ _ HI) as Hcount.
  pose proof (Inv_length_bound _ _ HI) as Hbound.
  pose proof (inv_chain _ _ HI) as Hseg. pose proof (inv_acyclic _ _ HI) as Hnd.
  pose proof (inv_addr _ _ HI) as Haddr.
  pose proof (Inv_fuel _ _ HI) as Hfuel.
  destruct cells as [|[hd hv] cells].
  { simpl in Hcount. assert ((length s =? 0) = true) as -> by (by rewrite Hcount).
    split; [done|].
    intros pre a post Hnil. by destruct pre. }
  assert ((length s =? 0) = false) as ->.
  { apply N.eqb_neq. rewrite Hcount. cbn [Datatypes.length]. lia. }
  cbn [Datatypes.length] in *.
  simpl in Hseg. destruct Hseg as (Hhd & Hhd0 & nx0 & Hhn & Hrest).
  unfold deref. rewrite Hhd, Hhn. mrun. split.
  - intros Hnotin. apply not_elem_of_cons in Hnotin as [Hne Hnotin]. simpl in Hne.
    assert ((hv =? v)%Z = false) as -> by (apply Z.eqb_neq; congruence).
    rewrite (delete_value_loop_miss _ _ _ _ _ cells); [|done..|lia]. by rewrite <- Hhd.
  - intros pre a post Hsplit Hnotin. destruct pre as [|[hd' hv'] pre].
    + simpl in Hsplit. injection Hsplit as -> -> ->.
      rewrite Z.eqb_refl. unfold delete_node. mrun.
      apply N.eqb_neq in Hhd0. rewrite Hhd0, Hhn. mrun.
      rewrite size_decr_pos by lia.
      eexists. split; [done|]. split; [|by rewrite Hcount].
      apply Inv_intro; simpl.
      * apply lseg_delete_ne; [|done]. by apply NoDup_cons in Hnd as [? _].
      * rewrite Hcount. lia.
      * by apply NoDup_cons in Hnd as [_ ?].
      * by apply Forall_cons in Haddr as [_ ?].
    + simpl in Hsplit. injection Hsplit as <- <- ->.
      apply not_elem_of_cons in Hnotin as [Hne Hnotin]. simpl in Hne.
      assert ((hv =? v)%Z = false) as -> by (apply Z.eqb_neq; congruence).
      destruct (delete_value_loop_hit s (S (base.size (heap s))) v hd hv nx0 pre a post)
        as (nx & Ha & ->); [done..| |].
      { rewrite length_app in Hfuel. lia. }
      rewrite size_decr_pos by lia.
      eexists. split; [done|]. split; [|done].
      assert (∃ pre0, (hd, hv) :: pre = pre0 ++ [List.last pre (hd, hv)]) as [pre0 Hpre0].
      { exists (removelast ((hd, hv) :: pre)).
        rewrite <- (last_cons (hd, hv) (hd, hv)). by apply app_removelast_last. }
      destruct (List.last pre (hd, hv)) as [b bv]. cbn [fst snd].
      assert (lseg (heap s) (head s) nullptr (pre0 ++ (b, bv) :: (a, v) :: post)) as Hall.
      { rewrite (cons_middle (b, bv)), app_assoc, <- Hpre0. simpl. rewrite Hhd. eauto 10. }
      assert (((hd, hv) :: pre ++ (a, v) :: post) = pre0 ++ (b, bv) :: (a, v) :: post) as Heq.
      { by rewrite (cons_middle (b, bv)), app_assoc, <- Hpre0. }
      rewrite Heq in Hnd, Haddr.
      destruct (lseg_unlink _ _ _ _ _ _ _ _ Hall Hnd) as (nx' & Hb & Ha' & Hnew).
      assert (nx' = nx) as -> by congruence.
      change ((hd, hv) :: pre ++ post) with (((hd, hv) :: pre) ++ post).
      rewrite Hpre0, <- app_assoc. simpl.
      apply Inv_intro; simpl; [done| | |].
      * rewrite Hcount. 
        assert (List.length ((hd, hv) :: pre ++ (a, v) :: post) = List.length (pre0 ++ (b, bv) :: (a, v) :: post)) as Hl by (by rewrite Heq).
        cbn [Datatypes.length] in Hl. rewrite !length_app in *. cbn [Datatypes.length] in *. lia.
      * rewrite fmap_app, !fmap_cons in *. by eapply NoDup_remove_second.
      * rewrite fmap_app, !fmap_cons in *. by eapply Forall_remove_second.
Qed.


(** [print] writes the rendering of the values, piece by piece. *)
Lemma string_app_assoc (a b c : string) : (a +:+ b) +:+ c = a +:+ (b +:+ c).
Proof.
  induction a as [|x a IH]; [done|].
  change (String x ((a +:+ b) +:+ c) = String x (a +:+ (b +:+ c))). by f_equal.
Qed.

Lemma string_app_nil_r (a : string) : a +:+ EmptyString = a.
Proof.
  induction a as [|x a IH]; [done|].
  change (String x (a +:+ EmptyString) = String x a). by f_equal.
Qed.

Lemma emit_cout_nil s : emit_cout EmptyString s = s.
Proof. destruct s. unfold emit_cout. simpl. by rewrite string_app_nil_r. Qed.

Lemma emit_cout_twice t1 t2 s : emit_cout t2 (emit_cout t1 s) = emit_cout (t1 +:+ t2) s.
Proof. unfold emit_cout. simpl. by rewrite string_app_assoc. Qed.

Lemma print_loop_spec s fuel curr cells :
  lseg (heap s) curr nullptr cells → (List.length cells < fuel)%nat →
  print_loop fuel curr s = Ret tt (emit_cout (arrows cells.*2) s).
Proof.
  revert s fuel curr. induction cells as [|[a v] rest IH]; intros s fuel curr.
  - simpl. intros -> Hfuel. destruct fuel as [|fuel]; [lia|]. simpl.
    by rewrite emit_cout_nil.
  - cbn [lseg Datatypes.length]. intros (-> & Ha0 & nx & Ha & Hrest) Hfuel.
    destruct fuel as [|fuel]; [lia|]. cbn [print_loop].
    apply N.eqb_neq in Ha0. rewrite Ha0. unfold bind at 1, deref. rewrite Ha.
    cbn [value next]. unfold bind at 1, write_cout.
    destruct rest as [|[c cv] rest].
    + simpl in Hrest. subst nx. unfold bind, ret. simpl.
      destruct fuel as [|fuel]; [simpl in Hfuel; lia|]. done.
    + assert (nx = c) as -> by (simpl in Hrest; by destruct Hrest as (-> & _)).
      assert ((c =? nullptr) = false) as ->.
      { apply N.eqb_neq. simpl in Hrest. by destruct Hrest as (_ & ? & _). }
      unfold bind at 1. rewrite IH; [|done|lia].
      rewrite !emit_cout_twice. done.
Qed.

Lemma print_spec s cells :
  Inv s cells → print s = Ret tt (emit_cout (rendering cells.*2 +:+ newline) s).
Proof.
  intros HI. unfold print, bind, write_cout, load_head, loop_bound, load_length.
  rewrite (print_loop_spec _ _ _ cells).
  - rewrite !emit_cout_twice. unfold rendering.
    change (length (emit_cout ("[" +:+ arrows cells.*2) s)) with (length s).
    rewrite length_fmap, <- (inv_count _ _ HI), !string_app_assoc. done.
  - apply HI.
  - pose proof (Inv_fuel _ _ HI). simpl. lia.
Qed.

(** The destructor releases the nodes of the chain front to back. *)
Lemma destructor_loop_spec s fuel curr cells depth :
  lseg (heap s) curr nullptr cells → NoDup cells.*1 → (List.length cells < fuel)%nat →
  destructor_loop fuel curr depth s =
    Ret (match cells with [] => depth | _ => Nat.max depth delete_call_depth end)
        (mkState (foldr delete (heap s) cells.*1) (head s) (length s) (cout s) (cerr s)
                 (released s ++ cells.*1)).
Proof.
  revert s fuel curr depth. induction cells as [|[a v] rest IH]; intros s fuel curr depth.
  - simpl. intros -> _ Hfuel. destruct fuel as [|fuel]; [lia|]. simpl.
    rewrite app_nil_r. by destruct s.
  - cbn [lseg Datatypes.length]. intros (-> & Ha0 & nx & Ha & Hrest) Hnd Hfuel.
    rewrite fmap_cons in Hnd. apply NoDup_cons in Hnd as [Hnotin Hnd]. simpl in Hnotin.
    destruct fuel as [|fuel]; [lia|]. cbn [destructor_loop].
    apply N.eqb_neq in Ha0. rewrite Ha0. unfold bind, deref, delete_node. rewrite Ha, Ha0, Ha.
    cbn [next]. rewrite IH; cbn [heap head length cout cerr released]; [|by apply lseg_delete_ne|done|lia].
    f_equal.
    + destruct rest; [done|]. lia.
    + rewrite fmap_cons, <- app_assoc. simpl. by rewrite delete_foldr_delete.
Qed.

Lemma destructor_spec s cells :
  Inv s cells →
  destructor s =
    Ret (match cells with [] => O | _ => delete_call_depth end)
        (mkState (foldr delete (heap s) cells.*1) (head s) (length s) (cout s) (cerr s)
                 (released s ++ cells.*1)).
Proof.
  intros HI. unfold destructor, bind, load_head, loop_bound.
  rewrite (destructor_loop_spec _ _ _ cells); [done|apply HI..|].
  pose proof (Inv_fuel _ _ HI). lia.
Qed.

(** [values] reads the values of the cells. *)
Lemma walk_spec h fuel p cells :
  lseg h p nullptr cells → (List.length cells < fuel)%nat → walk fuel h p = Some cells.*2.
Proof.
  revert fuel p. induction cells as [|[a v] rest IH]; intros fuel p.
  - simpl. intros -> Hfuel. destruct fuel; [lia|done].
  - cbn [lseg Datatypes.length]. intros (-> & Ha0 & nx & Ha & Hrest) Hfuel.
    destruct fuel as [|fuel]; [lia|]. cbn [walk].
    apply N.eqb_neq in Ha0. rewrite Ha0, Ha. cbn [value next].
    rewrite IH; [done..|lia].
Qed.

Lemma values_spec s cells : Inv s cells → values s = Some cells.*2.
Proof.
  intros HI. apply walk_spec; [apply HI|]. pose proof (Inv_fuel _ _ HI). lia.
Qed.


(** Writing to a stream does not touch the list. *)
Lemma Inv_emit_cout s cells t : Inv s cells → Inv (emit_cout t s) cells.
Proof. intros [H1 H2 H3 H4 H5]. by split. Qed.

Lemma Inv_emit_cerr s cells t : Inv s cells → Inv (emit_cerr t s) cells.
Proof. intros [H1 H2 H3 H4 H5]. by split. Qed.

(** The first node that holds [v], when there is one. *)
Lemma first_occurrence (cells : list (N * Z)) v :
  v ∈ cells.*2 → ∃ pre a post, cells = pre ++ (a, v) :: post ∧ v ∉ pre.*2.
Proof.
  induction cells as [|[c cv] cells IH]; simpl; intros Hin.
  - by apply elem_of_nil in Hin.
  - destruct (decide (cv = v)) as [->|Hne].
    + exists [], c, cells. split; [done|]. apply not_elem_of_nil.
    + apply elem_of_cons in Hin as [Heq|Hin]; [congruence|].
      destruct (IH Hin) as (pre & a & post & -> & Hnotin).
      exists ((c, cv) :: pre), a, post. split; [done|].
      rewrite fmap_cons. apply not_elem_of_cons. split; [simpl; congruence|done].
Qed.

(** The deleting methods always return. *)
Lemma delete_value_total s cells v :
  Inv s cells →
  ∃ ok s' cells', delete_value v s = Ret ok s' ∧ Inv s' cells'
    ∧ List.length cells = ((if ok then 1 else 0) + List.length cells')%nat.
Proof.
  intros HI. destruct (delete_value_spec s cells v HI) as [Hmiss Hhit].
  destruct (decide (v ∈ cells.*2)) as [Hin|Hnotin].
  - destruct (first_occurrence _ _ Hin) as (pre & a & post & -> & Hpre).
    destruct (Hhit pre a post eq_refl Hpre) as (s' & -> & HI' & _).
    exists true, s', (pre ++ post). split_and!; [done..|].
    rewrite !length_app. simpl. lia.
  - rewrite (Hmiss Hnotin). eexists false, _, cells. split_and!; [done| |done].
    by apply Inv_emit_cerr.
Qed.

Lemma delete_at_total s cells index :
  Inv s cells →
  ∃ ok s' cells', delete_at index s = Ret ok s' ∧ Inv s' cells'
    ∧ List.length cells = ((if ok then 1 else 0) + List.length cells')%nat.
Proof.
  intros HI. pose proof (delete_at_spec s cells index HI) as Hspec.
  pose proof (inv_count _ _ HI) as Hcount.
  destruct (decide (index < length s)) as [Hlt|Hge].
  - destruct Hspec as (a & av & s' & Hlook & -> & HI' & _).
    eexists true, s', _. split_and!; [done..|].
    rewrite length_app, length_take, length_drop. apply lookup_lt_Some in Hlook. lia.
  - rewrite Hspec. eexists false, _, cells. split_and!; [done| |done].
    by apply Inv_emit_cerr.
Qed.

(** One call of a caller: the invariant survives and the number of nodes
    moves with the reported effect. *)
Lemma perform_spec c s cells :
  Inv s cells →
  ∃ e s' cells', perform alloc c s = Some (e, s') ∧ Inv s' cells'
    ∧ match e with
      | Inserted => List.length cells' = S (List.length cells)
      | Deleted => List.length cells = S (List.length cells')
      | NoChange => List.length cells' = List.length cells
      end.
Proof.
  intros HI. pose proof (inv_count _ _ HI) as Hcount. destruct c as [v|v|index v|index|v|]; simpl.
  - pose proof (push_front_spec s cells v HI) as Hspec.
    destruct (alloc (heap s)) as [a|].
    + destruct Hspec as [-> HI']. by eexists Inserted, _, _.
    + rewrite Hspec. by eexists NoChange, _, _.
  - pose proof (push_back_spec s cells v HI) as Hspec.
    destruct (alloc (heap s)) as [a|].
    + destruct Hspec as (s' & -> & HI' & _). eexists Inserted, _, _.
      split_and!; [done..|]. rewrite length_app. simpl. lia.
    + rewrite Hspec. by eexists NoChange, _, _.
  - pose proof (insert_at_spec s cells index v HI) as Hspec.
    destruct (decide (length s < index)) as [Hgt|Hle].
    { rewrite Hspec. by eexists NoChange, _, _. }
    destruct (alloc (heap s)) as [a|].
    + destruct Hspec as (s' & -> & HI' & _). eexists Inserted, _, _.
      split_and!; [done..|].
      rewrite length_app. simpl. rewrite length_take, length_drop. lia.
    + rewrite Hspec. by eexists NoChange, _, _.
  - destruct (delete_at_total s cells index HI) as (ok & s' & cells' & -> & HI' & Hlen).
    destruct ok; [eexists Deleted, _, _|eexists NoChange, _, _]; split_and!; try done; lia.
  - destruct (delete_value_total s cells v HI) as (ok & s' & cells' & -> & HI' & Hlen).
    destruct ok; [eexists Deleted, _, _|eexists NoChange, _, _]; split_and!; try done; lia.
  - rewrite (print_spec s cells HI). eexists NoChange, _, _. split_and!; [done| |done].
    by apply Inv_emit_cout.
Qed.

Lemma run_spec cs t s cells :
  Inv s cells →
  ∃ t' s' cells', run alloc cs t s = Some (t', s') ∧ Inv s' cells'
    ∧ (insertions t' + deletions t + List.length cells
       = insertions t + deletions t' + List.length cells')%nat.
Proof.
  revert t s cells. induction cs as [|c cs IH]; intros t s cells HI; simpl.
  - by exists t, s, cells.
  - destruct (perform_spec c s cells HI) as (e & s1 & cells1 & -> & HI1 & Hlen).
    destruct (IH (count e t) s1 cells1 HI1) as (t' & s' & cells' & -> & HI' & Hbal).
    exists t', s', cells'. split_and!; [done..|].
    destruct e; simpl in Hbal; lia.
Qed.

(** ** The claims *)

(** C1. Every public operation ([push_front], [push_back], [insert_at],
    [delete_at], [delete_value], [print]) started in a state that satisfies
    the invariants ends, by a return or by an exception, in a state that
    satisfies them again: [length] is the number of nodes reachable from
    [head], the chain has no repeated node and ends in [nullptr], and
    [head] is [nullptr] exactly when [length] is 0.  No operation runs into
    undefined behaviour or fails to terminate. *)
Theorem invariants_preserved s :
  well_formed s →
  (∀ v, ∃ s', final (push_front alloc v s) = Some s' ∧ well_formed s')
  ∧ (∀ v, ∃ s', final (push_back alloc v s) = Some s' ∧ well_formed s')
  ∧ (∀ index v, ∃ s', final (insert_at alloc index v s) = Some s' ∧ well_formed s')
  ∧ (∀ index, ∃ s', final (delete_at index s) = Some s' ∧ well_formed s')
  ∧ (∀ v, ∃ s', final (delete_value v s) = Some s' ∧ well_formed s')
  ∧ (∃ s', final (print s) = Some s' ∧ well_formed s').
Proof.
  intros [cells HI].
  assert (∀ c, ∃ e s', perform alloc c s = Some (e, s') ∧ well_formed s') as Hstep.
  { intros c. destruct (perform_spec c s cells HI) as (e & s' & cells' & H & HI' & _).
    exists e, s'. split; [done|]. by exists cells'. }
  split_and!.
  - intros v. destruct (Hstep (PushFront v)) as (e & s' & H & Hwf). simpl in H.
    exists s'. split; [|done]. destruct (push_front alloc v s); naive_solver.
  - intros v. destruct (Hstep (PushBack v)) as (e & s' & H & Hwf). simpl in H.
    exists s'. split; [|done]. destruct (push_back alloc v s); naive_solver.
  - intros index v. destruct (Hstep (InsertAt index v)) as (e & s' & H & Hwf). simpl in H.
    exists s'. split; [|done]. destruct (insert_at alloc index v s); naive_solver.
  - intros index. destruct (Hstep (DeleteAt index)) as (e & s' & H & Hwf). simpl in H.
    exists s'. split; [|done]. destruct (delete_at index s) as [[]| | |]; naive_solver.
  - intros v. destruct (Hstep (DeleteValue v)) as (e & s' & H & Hwf). simpl in H.
    exists s'. split; [|done]. destruct (delete_value v s) as [[]| | |]; naive_solver.
  - destruct (Hstep Print) as (e & s' & H & Hwf). simpl in H.
    exists s'. split; [|done]. destruct (print s); naive_solver.
Qed.

(** C2. [insert_at index v] throws [std::out_of_range] exactly when
    [index > length] (and then leaves through no other door when memory is
    available: for [index <= length] it returns).  When it returns, [v] is
    the element at position [index], the elements before [index] keep their
    place, those from [index] on move back by one, and [length] has grown by
    exactly one.  On an empty list [insert_at(1, 99)] throws and
    [insert_at(0, 99)] leaves the list [99] of size 1. *)
Theorem insert_at_out_of_range_iff s cells index v :
  Inv s cells →
  ((∃ what s', insert_at alloc index v s = Throw (out_of_range what) s')
   ↔ length s < index)
  ∧ (index ≤ length s → ∀ a, alloc (heap s) = Some a →
     ∃ s', insert_at alloc index v s = Ret tt s')
  ∧ (∀ s', insert_at alloc index v s = Ret tt s' →
     ∃ cells', Inv s' cells'
       ∧ cells'.*2 = take (N.to_nat index) cells.*2 ++ v :: drop (N.to_nat index) cells.*2
       ∧ cells'.*2 !! N.to_nat index = Some v
       ∧ length s' = length s + 1)
  ∧ (length s = 0 →
     (∃ what, insert_at alloc 1 99 s = Throw (out_of_range what) s)
     ∧ ∀ s', insert_at alloc 0 99 s = Ret tt s' → values s' = Some [99%Z] ∧ length s' = 1).
Proof.
  intros HI. pose proof (inv_count _ _ HI) as Hcount.
  assert (∀ index v s', insert_at alloc index v s = Ret tt s' →
     ∃ cells', Inv s' cells'
       ∧ cells'.*2 = take (N.to_nat index) cells.*2 ++ v :: drop (N.to_nat index) cells.*2
       ∧ cells'.*2 !! N.to_nat index = Some v
       ∧ length s' = length s + 1) as Hok.
  { clear index v. intros index v s' Hret.
    pose proof (insert_at_spec s cells index v HI) as Hspec.
    destruct (decide (length s < index)) as [Hgt|Hle]; [congruence|].
    destruct (alloc (heap s)) as [a|]; [|congruence].
    destruct Hspec as (s'' & Hrun & HI' & _ & Hlen).
    assert (s'' = s') as -> by congruence.
    eexists. split; [done|].
    rewrite fmap_app, fmap_cons, fmap_take, fmap_drop. split_and!; [done| |done].
    rewrite lookup_app_r; rewrite length_take, length_fmap; [|lia].
    replace (N.to_nat index - N.to_nat index `min` List.length cells)%nat with O by lia.
    done. }
  pose proof (insert_at_spec s cells index v HI) as Hspec.
  split_and!.
  - destruct (decide (length s < index)) as [Hgt|Hle].
    + split; [done|]. intros _. eauto.
    + split; [|done]. intros (what & s' & Hthrow).
      destruct (alloc (heap s)) as [a|]; [|congruence].
      destruct Hspec as (s'' & Hrun & _). congruence.
  - intros Hle a Ha. destruct (decide (length s < index)) as [Hgt|_]; [lia|].
    rewrite Ha in Hspec. destruct Hspec as (s' & Hrun & _). eauto.
  - apply Hok.
  - intros Hempty. split.
    + pose proof (insert_at_spec s cells 1 99 HI) as Hone.
      destruct (decide (length s < 1)) as [_|Hge]; [eauto|lia].
    + intros s' Hret. destruct (Hok 0 99%Z s' Hret) as (cells' & HI' & Hvals & _ & Hlen).
      rewrite (Inv_empty _ _ HI Hempty) in Hvals. simpl in Hvals.
      rewrite (values_spec _ _ HI'), Hvals, Hlen, Hempty. done.
Qed.

(** C3. [delete_at index] never throws, never runs into undefined behaviour
    and always terminates.  It returns [false] exactly when the list is
    empty or [index >= length]; then the only change to the state is one
    diagnostic appended to [std::cerr].  When it returns [true], the node at
    position [index], and only that node, has been unlinked and released,
    and [length] has dropped by one. *)
Theorem delete_at_never_raises s cells index :
  Inv s cells →
  ∃ ok s', delete_at index s = Ret ok s'
    ∧ (ok = false ↔ length s = 0 ∨ length s ≤ index)
    ∧ (ok = false →
       s' = emit_cerr (if length s =? 0 then err_delete_at_empty
                       else err_index_out_of_range) s
       ∧ same_list s s')
    ∧ (ok = true →
       ∃ a av, cells !! N.to_nat index = Some (a, av)
         ∧ Inv s' (take (N.to_nat index) cells ++ drop (S (N.to_nat index)) cells)
         ∧ length s' = length s - 1
         ∧ released s' = released s ++ [a]).
Proof.
  intros HI. pose proof (delete_at_spec s cells index HI) as Hspec.
  destruct (decide (index < length s)) as [Hlt|Hge].
  - destruct Hspec as (a & av & s' & Hlook & Hrun & HI' & Hlen & _ & _ & Hrel).
    exists true, s'. split_and!; [done| |done|].
    + split; [done|lia].
    + intros _. by exists a, av.
  - exists false. eexists. split_and!; [done| |done..].
    split; [lia|done].
Qed.

(** C4. [delete_value v] unlinks and releases the first node, from the
    front, whose value is [v], decrements [length] and returns [true].  It
    returns [false] exactly when the list is empty or no node holds [v];
    then the only change to the state is one diagnostic appended to
    [std::cerr]. *)
Theorem delete_value_removes_first_match s cells v :
  Inv s cells →
  (∀ pre a post, cells = pre ++ (a, v) :: post → v ∉ pre.*2 →
     ∃ s', delete_value v s = Ret true s' ∧ Inv s' (pre ++ post)
           ∧ length s' = length s - 1
           ∧ released s' = released s ++ [a])
  ∧ (length s = 0 ∨ v ∉ cells.*2 →
     delete_value v s =
       Ret false (emit_cerr (if length s =? 0 then err_delete_value_empty
                             else info_value_not_found) s)
     ∧ same_list s (emit_cerr (if length s =? 0 then err_delete_value_empty
                               else info_value_not_found) s))
  ∧ ((∃ s', delete_value v s = Ret false s') ↔ length s = 0 ∨ v ∉ cells.*2).
Proof.
  intros HI. destruct (delete_value_spec s cells v HI) as [Hmiss Hhit].
  assert (length s = 0 ∨ v ∉ cells.*2 → v ∉ cells.*2) as Habsent.
  { intros [Hempty|Hnotin]; [|done]. rewrite (Inv_empty _ _ HI Hempty). apply not_elem_of_nil. }
  split_and!.
  - intros pre a post Hsplit Hpre.
    destruct (Hhit pre a post Hsplit Hpre) as (s' & Hrun & HI' & Hlen & _ & _ & Hrel).
    by exists s'.
  - intros Hcase. split; [|done]. apply Hmiss. by apply Habsent.
  - split.
    + intros (s' & Hrun). right. intros Hin.
      destruct (first_occurrence _ _ Hin) as (pre & a & post & Hsplit & Hpre).
      destruct (Hhit pre a post Hsplit Hpre) as (s'' & Hrun' & _). congruence.
    + intros Hcase. eexists. apply Hmiss. by apply Habsent.
Qed.

(** C5. A failing operation does not touch the list: when [insert_at]
    throws [std::out_of_range] the whole state is as before, and when
    [delete_at] or [delete_value] returns [false] the heap, [head] and
    [length], hence the sequence of values, are as before. *)
Theorem failure_is_noop s cells :
  Inv s cells →
  (∀ index v what s', insert_at alloc index v s = Throw (out_of_range what) s' → s' = s)
  ∧ (∀ index s', delete_at index s = Ret false s' →
       same_list s s' ∧ values s' = values s)
  ∧ (∀ v s', delete_value v s = Ret false s' →
       same_list s s' ∧ values s' = values s).
Proof.
  intros HI. split_and!.
  - intros index v what s' Hthrow.
    pose proof (insert_at_spec s cells index v HI) as Hspec.
    destruct (decide (length s < index)) as [Hgt|Hle]; [congruence|].
    destruct (alloc (heap s)) as [a|]; [|congruence].
    destruct Hspec as (s'' & Hrun & _). congruence.
  - intros index s' Hrun. pose proof (delete_at_spec s cells index HI) as Hspec.
    destruct (decide (index < length s)) as [Hlt|Hge].
    + destruct Hspec as (a & av & s'' & _ & Hrun' & _). congruence.
    + rewrite Hspec in Hrun. injection Hrun as <-. done.
  - intros v s' Hrun. destruct (delete_value_spec s cells v HI) as [Hmiss Hhit].
    destruct (decide (v ∈ cells.*2)) as [Hin|Hnotin].
    + destruct (first_occurrence _ _ Hin) as (pre & a & post & Hsplit & Hpre).
      destruct (Hhit pre a post Hsplit Hpre) as (s'' & Hrun' & _). congruence.
    + rewrite (Hmiss Hnotin) in Hrun. injection Hrun as <-. done.
Qed.


(** C7. After any sequence of public operations on an initially empty list,
    [size()] is the number of successful insertions minus the number of
    successful deletions. *)
Theorem size_counts_insertions_minus_deletions cs s0 :
  Inv s0 [] →
  ∃ t s', run alloc cs (mkTally 0 0) s0 = Some (t, s')
    ∧ size s' = Ret (N.of_nat (insertions t - deletions t)) s'
    ∧ (deletions t ≤ insertions t)%nat.
Proof.
  intros HI. destruct (run_spec cs (mkTally 0 0) s0 [] HI) as (t & s' & cells' & Hrun & HI' & Hbal).
  exists t, s'. simpl in Hbal. split_and!; [done| |lia].
  unfold size, load_length. rewrite (inv_count _ _ HI'). do 2 f_equal. lia.
Qed.


(** C8. The diagnostics of the failing paths fall into three categories
    that can be told apart: [delete_at] and [delete_value] on an empty list
    report an empty list, [delete_at] beyond the end of a non-empty list
    reports an index out of range, and [delete_value] of an absent value on
    a non-empty list reports that the value was not found.  The four texts
    are pairwise different. *)
Theorem diagnostics_by_category s cells :
  Inv s cells →
  (length s = 0 → ∀ index,
     delete_at index s = Ret false (emit_cerr err_delete_at_empty s))
  ∧ (length s = 0 → ∀ v,
       delete_value v s = Ret false (emit_cerr err_delete_value_empty s))
  ∧ (length s ≠ 0 → ∀ index, length s ≤ index →
       delete_at index s = Ret false (emit_cerr err_index_out_of_range s))
  ∧ (length s ≠ 0 → ∀ v, v ∉ cells.*2 →
       delete_value v s = Ret false (emit_cerr info_value_not_found s))
  ∧ category_of err_delete_at_empty = Some EmptyList
  ∧ category_of err_delete_value_empty = Some EmptyList
  ∧ category_of err_index_out_of_range = Some IndexOutOfRange
  ∧ category_of info_value_not_found = Some NotFound
  ∧ NoDup [err_delete_at_empty; err_delete_value_empty;
           err_index_out_of_range; info_value_not_found].
Proof.
  intros HI. split_and!; try done.
  - intros Hempty index. pose proof (delete_at_spec s cells index HI) as Hspec.
    destruct (decide (index < length s)) as [Hlt|_]; [lia|].
    by rewrite Hspec, Hempty.
  - intros Hempty v. destruct (delete_value_spec s cells v HI) as [Hmiss _].
    rewrite Hmiss, Hempty; [done|].
    rewrite (Inv_empty _ _ HI Hempty). apply not_elem_of_nil.
  - intros Hne index Hge. pose proof (delete_at_spec s cells index HI) as Hspec.
    destruct (decide (index < length s)) as [Hlt|_]; [lia|].
    apply N.eqb_neq in Hne. by rewrite Hspec, Hne.
  - intros Hne v Hnotin. destruct (delete_value_spec s cells v HI) as [Hmiss _].
    apply N.eqb_neq in Hne. by rewrite (Hmiss Hnotin), Hne.
  - apply (bool_decide_unpack _). by vm_compute.
Qed.

(** C9. The destructor of a list of [N] nodes returns after releasing each
    of the [N] nodes exactly once, in list order: the addresses it hands to
    [delete] are those of the chain, without repetition, each was allocated
    and none is afterwards; nothing else in the heap changes, and a heap that
    held only the list is empty afterwards.  It never releases an address
    that holds no node (that would be undefined behaviour), and the calls it
    makes do not nest: their depth is at most one, whatever [N]. *)
Theorem destructor_releases_every_node_once s cells :
  Inv s cells →
  ∃ depth s', destructor s = Ret depth s'
    ∧ released s' = released s ++ cells.*1
    ∧ NoDup cells.*1
    ∧ N.of_nat (List.length cells.*1) = length s
    ∧ (∀ a, a ∈ cells.*1 → is_Some (heap s !! a) ∧ heap s' !! a = None)
    ∧ (∀ a, a ∉ cells.*1 → heap s' !! a = heap s !! a)
    ∧ ((∀ a, is_Some (heap s !! a) → a ∈ cells.*1) → heap s' = ∅)
    ∧ (depth ≤ delete_call_depth)%nat.
Proof.
  intros HI. rewrite (destructor_spec s cells HI). eexists _, _. split; [done|].
  cbn [heap released]. split_and!.
  - done.
  - apply HI.
  - by rewrite length_fmap, (inv_count _ _ HI).
  - intros a Ha. split; [by eapply lseg_allocated; [apply HI|]|].
    by apply lookup_foldr_delete.
  - intros a Ha. by apply lookup_foldr_delete_not_elem_of.
  - intros Honly. apply map_eq. intros a. rewrite lookup_empty.
    destruct (decide (a ∈ cells.*1)) as [Hin|Hnotin].
    + by apply lookup_foldr_delete.
    + rewrite lookup_foldr_delete_not_elem_of by done.
      destruct (heap s !! a) eqn:Ha; [|done]. exfalso. apply Hnotin, Honly. by rewrite Ha.
  - destruct cells; unfold delete_call_depth; lia.
Qed.

(** C10. [push_front(v)] followed by [delete_at(0)]: [push_front] returns
    (whenever [new] finds memory), the deletion then returns [true], and the
    list is exactly as before the two calls, with the same heap, [head],
    [length] and sequence of values. *)
Theorem push_front_then_delete_at_0 s cells v :
  Inv s cells →
  (is_Some (alloc (heap s)) → ∃ s1, push_front alloc v s = Ret tt s1)
  ∧ (∀ s1, push_front alloc v s = Ret tt s1 →
     ∃ s2, delete_at 0 s1 = Ret true s2
       ∧ same_list s s2 ∧ values s2 = values s ∧ Inv s2 cells
       ∧ cout s2 = cout s ∧ cerr s2 = cerr s).
Proof.
  intros HI. pose proof (push_front_spec s cells v HI) as Hspec.
  destruct (alloc (heap s)) as [a|] eqn:Ha.
  2:{ split; [by intros [? ?]|]. intros s1 Hpush. congruence. }
  destruct (alloc_ok _ _ Ha) as (Hfree & H0 & Hlt).
  pose proof (Inv_room _ _ _ HI Hfree H0 Hlt) as Hroom.
  destruct Hspec as [Hrun HI1]. split; [intros _; by eexists|].
  intros s1 Hpush. rewrite Hrun in Hpush. injection Hpush as <-.
  unfold delete_at, deref, delete_node. mrun.
  assert ((length s + 1 =? 0) = false) as -> by (apply N.eqb_neq; lia).
  mrun.
  assert ((length s + 1 <=? 0) = false) as -> by (apply N.leb_gt; lia).
  change (0 =? 0) with true. mrun. rewrite lookup_insert_eq. mrun.
  assert ((a =? nullptr) = false) as -> by (apply N.eqb_neq; unfold nullptr; lia).
  rewrite lookup_insert_eq. mrun.
  rewrite delete_insert_eq, delete_id by done.
  rewrite size_decr_pos by lia. replace (length s + 1 - 1) with (length s) by lia.
  eexists. split; [done|]. split_and!; try done.
  destruct HI as [H1 H2 H3 H4 H5]. by split.
Qed.

End Specs.

(** ** The sample states and the sample allocator *)

Lemma pick_free_ok : allocator_ok pick_free.
Proof.
  intros h a. unfold pick_free.
  pose proof (is_fresh ({[nullptr]} ∪ dom h)) as Hfresh.
  destruct (fresh ({[nullptr]} ∪ dom h) <? 2 ^ 64) eqn:Hlt; [|done].
  intros [= <-]. apply N.ltb_lt in Hlt.
  apply not_elem_of_union in Hfresh as [H0 Hdom].
  apply not_elem_of_singleton in H0. apply not_elem_of_dom in Hdom.
  split_and!; [done| |done]. by apply N.neq_0_lt_0.
Qed.

Lemma Inv_start : Inv start [].
Proof. apply Inv_intro; simpl; [done|done|apply NoDup_nil_2|done]. Qed.

Lemma Inv_sample : Inv sample sample_cells.
Proof.
  apply Inv_intro.
  - simpl. repeat (split; [done|]). eexists. split; [by vm_compute|].
    repeat (split; [done|]). eexists. split; [by vm_compute|].
    repeat (split; [done|]). eexists. split; [by vm_compute|]. done.
  - done.
  - apply (bool_decide_unpack _). by vm_compute.
  - apply (bool_decide_unpack _). by vm_compute.
Qed.

Lemma well_formed_sample : well_formed sample.
Proof. exists sample_cells. apply Inv_sample. Qed.

Lemma three_pushes :
  (push_back pick_free 10 ;;; push_back pick_free 20 ;;; push_front pick_free 5) start
  = Ret tt sample.
Proof. vm_compute. reflexivity. Qed.

(** The examples of the demonstration driver, run with [pick_free]. *)

Example driver_test_1 :
  (push_back pick_free 10 ;;; push_back pick_free 20 ;;; push_front pick_free 5 ;;;
   print ;;; ok <- delete_at 1 ;; print ;;; s <- (fun s => Ret s s) ;; ret (ok, cout s, values s))
    start
  = Ret (true,
         "[5 -> 10 -> 20] (size=3)" +:+ newline +:+ "[5 -> 20] (size=2)" +:+ newline,
         Some [5; 20]%Z)
        (mkState (<[3 := mkNode 5 2]> (<[2 := mkNode 20 nullptr]> ∅)) 3 2
                 ("[5 -> 10 -> 20] (size=3)" +:+ newline +:+ "[5 -> 20] (size=2)" +:+ newline)
                 EmptyString [1]).
Proof. vm_compute. reflexivity. Qed.

Example driver_test_2 :
  final ((push_back pick_free 1 ;;; push_back pick_free 3 ;;; insert_at pick_free 1 2 ;;;
          print ;;; delete_value 2 ;;; print ;;; delete_value 42 ;;; print) start)
  = Some (mkState (<[2 := mkNode 3 nullptr]> (<[1 := mkNode 1 2]> ∅)) 1 2
                  ("[1 -> 2 -> 3] (size=3)" +:+ newline +:+ "[1 -> 3] (size=2)" +:+ newline
                   +:+ "[1 -> 3] (size=2)" +:+ newline)
                  info_value_not_found [3]).
Proof. vm_compute. reflexivity. Qed.

Example driver_test_3 :
  delete_at 0 start = Ret false (emit_cerr err_delete_at_empty start)
  ∧ insert_at pick_free 1 99 start = Throw (out_of_range msg_index_out_of_range) start
  ∧ (insert_at pick_free 0 99 ;;; print ;;; delete_at 5) start
    = Ret false (mkState (<[1 := mkNode 99 nullptr]> ∅) 1 1
                         ("[99] (size=1)" +:+ newline) err_index_out_of_range []).
Proof. split_and!; vm_compute; reflexivity. Qed.

(** ** The claims on the sample states *)

Lemma invariants_preserved_witness :
  (allocator_ok pick_free)
  ∧ (well_formed sample)
  ∧ ((∀ v, ∃ s', final (push_front pick_free v sample) = Some s' ∧ well_formed s')
     ∧ (∀ v, ∃ s', final (push_back pick_free v sample) = Some s' ∧ well_formed s')
     ∧ (∀ index v, ∃ s', final (insert_at pick_free index v sample) = Some s' ∧ well_formed s')
     ∧ (∀ index, ∃ s', final (delete_at index sample) = Some s' ∧ well_formed s')
     ∧ (∀ v, ∃ s', final (delete_value v sample) = Some s' ∧ well_formed s')
     ∧ (∃ s', final (print sample) = Some s' ∧ well_formed s')).
Proof.
  split; [exact pick_free_ok|].
  split; [exact well_formed_sample|].
  exact (invariants_preserved pick_free pick_free_ok sample well_formed_sample).
Defined.

Lemma size_counts_insertions_minus_deletions_witness :
  (allocator_ok pick_free)
  ∧ (Inv start [])
  ∧ (∃ t s', run pick_free sample_calls (mkTally 0 0) start = Some (t, s')
       ∧ size s' = Ret (N.of_nat (insertions t - deletions t)) s'
       ∧ (deletions t ≤ insertions t)%nat).
Proof.
  split; [exact pick_free_ok|].
  split; [exact Inv_start|].
  exact (size_counts_insertions_minus_deletions pick_free pick_free_ok sample_calls start Inv_start).
Defined.

Lemma insert_at_out_of_range_iff_witness :
  (allocator_ok pick_free)
  ∧ (Inv sample sample_cells)
  ∧ (((∃ what s', insert_at pick_free 1 7%Z sample = Throw (out_of_range what) s')
      ↔ length sample < 1)
     ∧ (1 ≤ length sample → ∀ a, pick_free (heap sample) = Some a →
        ∃ s', insert_at pick_free 1 7%Z sample = Ret tt s')
     ∧ (∀ s', insert_at pick_free 1 7%Z sample = Ret tt s' →
        ∃ cells', Inv s' cells'
          ∧ cells'.*2 = take (N.to_nat 1) sample_cells.*2 ++ 7%Z :: drop (N.to_nat 1) sample_cells.*2
          ∧ cells'.*2 !! N.to_nat 1 = Some 7%Z
          ∧ length s' = length sample + 1)
     ∧ (length sample = 0 →
        (∃ what, insert_at pick_free 1 99 sample = Throw (out_of_range what) sample)
        ∧ ∀ s', insert_at pick_free 0 99 sample = Ret tt s' → values s' = Some [99%Z] ∧ length s' = 1)).
Proof.
  split; [exact pick_free_ok|].
  split; [exact Inv_sample|].
  exact (insert_at_out_of_range_iff pick_free pick_free_ok sample sample_cells 1 7%Z Inv_sample).
Defined.

Lemma delete_at_never_raises_witness :
  (Inv sample sample_cells)
  ∧ (∃ ok s', delete_at 1 sample = Ret ok s'
       ∧ (ok = false ↔ length sample = 0 ∨ length sample ≤ 1)
       ∧ (ok = false →
          s' = emit_cerr (if length sample =? 0 then err_delete_at_empty
                          else err_index_out_of_range) sample
          ∧ same_list sample s')
       ∧ (ok = true →
          ∃ a av, sample_cells !! N.to_nat 1 = Some (a, av)
            ∧ Inv s' (take (N.to_nat 1) sample_cells ++ drop (S (N.to_nat 1)) sample_cells)
            ∧ length s' = length sample - 1
            ∧ released s' = released sample ++ [a])).
Proof.
  split; [exact Inv_sample|].
  exact (delete_at_never_raises sample sample_cells 1 Inv_sample).
Defined.

Lemma delete_value_removes_first_match_witness :
  (Inv sample sample_cells)
  ∧ ((∀ pre a post, sample_cells = pre ++ (a, 10%Z) :: post → 10%Z ∉ pre.*2 →
        ∃ s', delete_value 10%Z sample = Ret true s' ∧ Inv s' (pre ++ post)
              ∧ length s' = length sample - 1
              ∧ released s' = released sample ++ [a])
     ∧ (length sample = 0 ∨ 10%Z ∉ sample_cells.*2 →
        delete_value 10%Z sample =
          Ret false (emit_cerr (if length sample =? 0 then err_delete_value_empty
                                else info_value_not_found) sample)
        ∧ same_list sample (emit_cerr (if length sample =? 0 then err_delete_value_empty
                                  else info_value_not_found) sample))
     ∧ ((∃ s', delete_value 10%Z sample = Ret false s') ↔ length sample = 0 ∨ 10%Z ∉ sample_cells.*2)).
Proof.
  split; [exact Inv_sample|].
  exact (delete_value_removes_first_match sample sample_cells 10%Z Inv_sample).
Defined.

Lemma failure_is_noop_witness :
  (allocator_ok pick_free)
  ∧ (Inv sample sample_cells)
  ∧ ((∀ index v what s', insert_at pick_free index v sample = Throw (out_of_range what) s' → s' = sample)
     ∧ (∀ index s', delete_at index sample = Ret false s' →
          same_list sample s' ∧ values s' = values sample)
     ∧ (∀ v s', delete_value v sample = Ret false s' →
          same_list sample s' ∧ values s' = values sample)).
Proof.
  split; [exact pick_free_ok|].
  split; [exact Inv_sample|].
  exact (failure_is_noop pick_free pick_free_ok sample sample_cells Inv_sample).
Defined.


Lemma diagnostics_by_category_witness :
  (Inv sample sample_cells)
  ∧ ((length sample = 0 → ∀ index,
        delete_at index sample = Ret false (emit_cerr err_delete_at_empty sample))
     ∧ (length sample = 0 → ∀ v,
          delete_value v sample = Ret false (emit_cerr err_delete_value_empty sample))
     ∧ (length sample ≠ 0 → ∀ index, length sample ≤ index →
          delete_at index sample = Ret false (emit_cerr err_index_out_of_range sample))
     ∧ (length sample ≠ 0 → ∀ v, v ∉ sample_cells.*2 →
          delete_value v sample = Ret false (emit_cerr info_value_not_found sample))
     ∧ category_of err_delete_at_empty = Some EmptyList
     ∧ category_of err_delete_value_empty = Some EmptyList
     ∧ category_of err_index_out_of_range = Some IndexOutOfRange
     ∧ category_of info_value_not_found = Some NotFound
     ∧ NoDup [err_delete_at_empty; err_delete_value_empty;
              err_index_out_of_range; info_value_not_found]).
Proof.
  split; [exact Inv_sample|].
  exact (diagnostics_by_category sample sample_cells Inv_sample).
Defined.

Lemma destructor_releases_every_node_once_witness :
  (Inv sample sample_cells)
  ∧ (∃ depth s', destructor sample = Ret depth s'
       ∧ released s' = released sample ++ sample_cells.*1
       ∧ NoDup sample_cells.*1
       ∧ N.of_nat (List.length sample_cells.*1) = length sample
       ∧ (∀ a, a ∈ sample_cells.*1 → is_Some (heap sample !! a) ∧ heap s' !! a = None)
       ∧ (∀ a, a ∉ sample_cells.*1 → heap s' !! a = heap sample !! a)
       ∧ ((∀ a, is_Some (heap sample !! a) → a ∈ sample_cells.*1) → heap s' = ∅)
       ∧ (depth ≤ delete_call_depth)%nat).
Proof.
  split; [exact Inv_sample|].
  exact (destructor_releases_every_node_once sample sample_cells Inv_sample).
Defined.

Lemma push_front_then_delete_at_0_witness :
  (allocator_ok pick_free)
  ∧ (Inv sample sample_cells)
  ∧ ((is_Some (pick_free (heap sample)) → ∃ s1, push_front pick_free 7%Z sample = Ret tt s1)
     ∧ (∀ s1, push_front pick_free 7%Z sample = Ret tt s1 →
        ∃ s2, delete_at 0 s1 = Ret true s2
          ∧ same_list sample s2 ∧ values s2 = values sample ∧ Inv s2 sample_cells
          ∧ cout s2 = cout sample ∧ cerr s2 = cerr sample)).
Proof.
  split; [exact pick_free_ok|].
  split; [exact Inv_sample|].
  exact (push_front_then_delete_at_0 pick_free pick_free_ok sample sample_cells 7%Z Inv_sample).
Defined.

(** * Further properties of the class and of its driver *)

(** ** What a method does to the heap *)

Section Further.

Variable alloc : gmap N Node -> option N.
Hypothesis alloc_ok : allocator_ok alloc.

Ltac mrun :=
  unfold incr_length, decr_length, empty, size;
  unfold bind, ret, throw, load_head, load_length, store_head, store_length,
    loop_bound, write_cout, write_cerr, set_heap, emit_cout, emit_cerr;
  cbn [heap head length cout cerr released value next].

Lemma push_front_heap s cells v a :
  Inv s cells → alloc (heap s) = Some a →
  ∃ s', push_front alloc v s = Ret tt s' ∧ agree_outside [a] (heap s) (heap s').
Proof.
  intros HI Ha. pose proof (push_front_spec alloc alloc_ok s cells v HI) as Hspec.
  rewrite Ha in Hspec. destruct Hspec as [Hrun _]. eexists. split; [done|].
  intros x Hx. simpl. apply lookup_insert_ne. intros ->. apply Hx, list_elem_of_here.
Qed.

Lemma push_back_heap s cells v a :
  Inv s cells → alloc (heap s) = Some a →
  ∃ s', push_back alloc v s = Ret tt s'
        ∧ agree_outside (a :: cells.*1) (heap s) (heap s').
Proof.
  intros HI Ha. unfold push_back, new_node. mrun. rewrite Ha.
  destruct (alloc_ok _ _ Ha) as (Hfree & H0 & Hlt).
  assert (a ∉ cells.*1) as Hnotin by (eapply lseg_fresh; [apply HI|done]).
  mrun.
  destruct cells as [|c cells _] using rev_ind.
  - pose proof (inv_chain _ _ HI) as Hseg. simpl in Hseg. rewrite Hseg. simpl.
    eexists. split; [done|]. intros x Hx. simpl.
    apply lookup_insert_ne. intros ->. apply Hx, list_elem_of_here.
  - destruct c as [b w].
    pose proof (inv_chain _ _ HI) as Hseg.
    assert ((head s =? nullptr) = false) as ->.
    { apply N.eqb_neq. destruct cells as [|[c u] cells]; simpl in Hseg; by destruct Hseg as (-> & ? & _). }
    rewrite (push_back_loop_spec _ _ _ cells b w).
    2:{ simpl. apply lseg_insert_ne; [done|]. done. }
    2:{ simpl. pose proof (Inv_fuel _ _ HI) as Hf. rewrite length_app in Hf. simpl in Hf.
        rewrite map_size_insert_None by done. lia. }
    unfold store_next, set_heap. simpl.
    assert (a ≠ b) as Hab.
    { intros ->. apply Hnotin. rewrite fmap_app. apply elem_of_app. right. simpl.
      apply list_elem_of_here. }
    apply lseg_app in Hseg as (m & Hseg1 & Hseg2). simpl in Hseg2.
    destruct Hseg2 as (-> & Hb & nx & Hnx & ->).
    rewrite lookup_insert_ne, Hnx by done. simpl.
    eexists. split; [done|]. intros x Hx. simpl.
    apply not_elem_of_cons in Hx as [Hxa Hx].
    rewrite fmap_app in Hx. apply not_elem_of_app in Hx as [_ Hxb].
    apply not_elem_of_cons in Hxb as [Hxb _]. simpl in Hxb.
    by rewrite !lookup_insert_ne.
Qed.

Lemma insert_at_heap s cells index v a :
  Inv s cells → index ≤ length s → alloc (heap s) = Some a →
  ∃ s', insert_at alloc index v s = Ret tt s'
        ∧ agree_outside (a :: cells.*1) (heap s) (heap s').
Proof.
  intros HI Hle Ha. unfold insert_at. mrun.
  pose proof (inv_count _ _ HI) as Hcount.
  pose proof (Inv_length_bound _ _ HI) as Hbound.
  assert ((length s <? index) = false) as -> by (apply N.ltb_ge; lia).
  destruct (decide (index = 0)) as [->|Hne0].
  { simpl. destruct (push_front_heap s cells v a HI Ha) as (s' & -> & Hagree).
    exists s'. split; [done|]. intros x Hx. apply Hagree.
    apply not_elem_of_cons in Hx as [Hx _].
    apply not_elem_of_cons. split; [done|apply not_elem_of_nil]. }
  assert ((index =? 0) = false) as -> by (by apply N.eqb_neq).
  destruct (decide (index = length s)) as [->|Hnelen].
  { rewrite N.eqb_refl. eapply push_back_heap; done. }
  assert ((index =? length s) = false) as -> by (by apply N.eqb_neq).
  rewrite size_decr_pos by lia.
  destruct (lookup_lt_is_Some_2 cells (N.to_nat (index - 1))) as [[b bv] Hb]; [lia|].
  rewrite (get_node_spec _ _ _ _ _ HI Hb).
  unfold new_node. rewrite Ha.
  destruct (alloc_ok _ _ Ha) as (Hfree & H0 & Hlt).
  pose proof (inv_chain _ _ HI) as Hseg.
  destruct (lseg_lookup _ _ _ _ _ _ _ Hseg Hb) as (nx & Hnx & _).
  assert (a ≠ b) as Hab by (intros ->; congruence).
  unfold deref, store_next. mrun.
  rewrite lookup_insert_ne, Hnx by done. mrun.
  rewrite lookup_insert_eq. mrun.
  rewrite insert_insert_eq, lookup_insert_ne, Hnx by done. mrun.
  eexists. split; [done|]. intros x Hx. simpl.
  apply not_elem_of_cons in Hx as [Hxa Hx].
  assert (x ≠ b) as Hxb.
  { intros ->. apply Hx. apply list_elem_of_fmap. exists (b, bv).
    split; [done|]. by eapply list_elem_of_lookup_2. }
  by rewrite !lookup_insert_ne.
Qed.

Lemma delete_at_heap s cells index a av :
  Inv s cells → cells !! N.to_nat index = Some (a, av) →
  ∃ s', delete_at index s = Ret true s'
        ∧ heap s' !! a = None ∧ agree_outside cells.*1 (heap s) (heap s').
Proof.
  intros HI Hcell. unfold delete_at. mrun.
  pose proof (inv_count _ _ HI) as Hcount.
  pose proof (Inv_length_bound _ _ HI) as Hbound.
  pose proof (inv_chain _ _ HI) as Hseg. pose proof (inv_acyclic _ _ HI) as Hnd.
  apply lookup_lt_Some in Hcell as Hlt.
  assert ((length s =? 0) = false) as -> by (apply N.eqb_neq; lia).
  assert ((length s <=? index) = false) as -> by (apply N.leb_gt; lia).
  destruct (decide (index = 0)) as [->|Hne0].
  - simpl. destruct cells as [|[a' av'] rest]; [done|].
    change (N.to_nat 0) with O in Hcell. simpl in Hcell. injection Hcell as -> ->.
    simpl in Hseg. destruct Hseg as (Hhd & Ha0 & nx & Ha & _).
    unfold deref, delete_node. rewrite Hhd, Ha. mrun.
    apply N.eqb_neq in Ha0. rewrite Ha0, Ha. mrun.
    eexists. split; [done|]. simpl. split; [apply lookup_delete_eq|].
    intros x Hx. apply not_elem_of_cons in Hx as [Hx _]. by apply lookup_delete_ne.
  - assert ((index =? 0) = false) as -> by (by apply N.eqb_neq).
    rewrite size_decr_pos by lia.
    destruct (lookup_lt_is_Some_2 cells (N.to_nat (index - 1))) as [[b bv] Hb]; [lia|].
    rewrite (get_node_spec _ _ _ _ _ HI Hb).
    assert (cells = take (N.to_nat (index - 1)) cells ++ (b, bv) :: (a, av)
                      :: drop (S (N.to_nat index)) cells) as Hsplit.
    { rewrite <- (take_drop_middle _ _ _ Hb) at 1. do 2 f_equal.
      replace (S (N.to_nat (index - 1))) with (N.to_nat index) by lia.
      by apply drop_S. }
    pose proof Hseg as Hseg0. pose proof Hnd as Hnd0.
    rewrite Hsplit in Hseg, Hnd.
    destruct (lseg_unlink _ _ _ _ _ _ _ _ Hseg Hnd) as (nx & Hhb & Hha & Hseg').
    assert (a ≠ b) as Hab.
    { intros ->. destruct (NoDup_middle _ _ _ _ Hnd) as [_ Hnotin].
      apply Hnotin. simpl. apply list_elem_of_here. }
    assert (a ≠ nullptr) as Ha0.
    { eapply lseg_allocated; [apply Hseg0|].
      apply list_elem_of_fmap. exists (a, av). split; [done|]. by eapply list_elem_of_lookup_2. }
    unfold deref, store_next, delete_node. rewrite Hhb. mrun. rewrite Hha, Hhb. mrun.
    apply N.eqb_neq in Ha0. rewrite Ha0, lookup_insert_ne, Hha by done. mrun.
    eexists. split; [done|]. simpl. split; [apply lookup_delete_eq|].
    intros x Hx.
    assert (x ≠ a ∧ x ≠ b) as [Hxa Hxb].
    { split; intros ->; apply Hx; apply list_elem_of_fmap;
        [exists (a, av)|exists (b, bv)]; (split; [done|]); by eapply list_elem_of_lookup_2. }
    by rewrite lookup_delete_ne, lookup_insert_ne.
Qed.

Lemma delete_value_heap s pre a v post :
  Inv s (pre ++ (a, v) :: post) → v ∉ pre.*2 →
  ∃ s', delete_value v s = Ret true s'
        ∧ heap s' !! a = None
        ∧ agree_outside (pre ++ (a, v) :: post).*1 (heap s) (heap s').
Proof.
  intros HI Hnotin. unfold delete_value. mrun.
  pose proof (inv_count _ _ HI) as Hcount.
  pose proof (inv_chain _ _ HI) as Hseg.
  pose proof (Inv_fuel _ _ HI) as Hfuel.
  assert ((length s =? 0) = false) as ->.
  { apply N.eqb_neq. rewrite Hcount, length_app. cbn [Datatypes.length]. lia. }
  destruct pre as [|[hd hv] pre].
  - simpl in Hseg. destruct Hseg as (Hhd & Hhd0 & nx0 & Hhn & Hrest).
    unfold deref. rewrite Hhd, Hhn. mrun.
    rewrite Z.eqb_refl. unfold delete_node. mrun.
    apply N.eqb_neq in Hhd0. rewrite Hhd0, Hhn. mrun.
    eexists. split; [done|]. simpl. split; [apply lookup_delete_eq|].
    intros x Hx. apply not_elem_of_cons in Hx as [Hx _]. by apply lookup_delete_ne.
  - simpl in Hseg. destruct Hseg as (Hhd & Hhd0 & nx0 & Hhn & Hrest).
    unfold deref. rewrite Hhd, Hhn. mrun.
    rewrite fmap_cons in Hnotin.
    apply not_elem_of_cons in Hnotin as [Hne Hnotin]. simpl in Hne.
    assert ((hv =? v)%Z = false) as -> by (apply Z.eqb_neq; congruence).
    destruct (delete_value_loop_hit s (S (base.size (heap s))) v hd hv nx0 pre a post)
      as (nx & Ha & ->); [done..| |].
    { simpl in Hfuel. rewrite length_app in Hfuel. lia. }
    eexists. split; [done|]. simpl. split; [apply lookup_delete_eq|].
    intros x Hx.
    assert ((List.last pre (hd, hv)).1 ∈ ((hd, hv) :: pre ++ (a, v) :: post).*1) as Hlast.
    { apply list_elem_of_fmap. exists (List.last pre (hd, hv)). split; [done|].
      destruct (decide (pre = [])) as [->|Hpre]; [apply list_elem_of_here|].
      apply list_elem_of_further, elem_of_app. left.
      rewrite (app_removelast_last (hd, hv) Hpre) at 2.
      apply elem_of_app. right. apply list_elem_of_here. }
    assert (x ≠ a).
    { intros ->. apply Hx. apply list_elem_of_further. rewrite fmap_app.
      apply elem_of_app. right. apply list_elem_of_here. }
    rewrite lookup_delete_ne, lookup_insert_ne; [done| |done].
    intros Heq. apply Hx. rewrite <- Heq. exact Hlast.
Qed.

(** ** More on the methods, one by one *)

(** X1. [get_node(index)] throws [std::out_of_range] when
    [index >= length] and otherwise returns, without touching the state, the
    address of the node that holds the element at position [index]. *)
Theorem get_node_bounds s cells index :
  Inv s cells →
  (length s ≤ index →
   get_node index s = Throw (out_of_range msg_index_out_of_range) s)
  ∧ (index < length s →
     ∃ a v nx, get_node index s = Ret a s
       ∧ cells !! N.to_nat index = Some (a, v)
       ∧ heap s !! a = Some (mkNode v nx)
       ∧ ∃ vs, values s = Some vs ∧ vs !! N.to_nat index = Some v).
Proof.
  intros HI. split; [apply get_node_out_of_range|]. intros Hlt.
  pose proof (inv_count _ _ HI) as Hcount.
  destruct (lookup_lt_is_Some_2 cells (N.to_nat index)) as [[a v] Ha]; [lia|].
  destruct (lseg_lookup _ _ _ _ _ _ _ (inv_chain _ _ HI) Ha) as (nx & Hnx & _).
  exists a, v, nx. split_and!; [by eapply get_node_spec|done..|].
  exists cells.*2. split; [by apply values_spec|].
  by rewrite list_lookup_fmap, Ha.
Qed.

(** X2. When [push_front(v)] returns, the values are [v] followed by the old
    values, at a node that was free before, and [length] has grown by one;
    the only exception it lets escape is [std::bad_alloc], and then the
    state is as before the call. *)
Theorem push_front_prepends s cells v :
  Inv s cells →
  (∀ s', push_front alloc v s = Ret tt s' →
     values s' = Some (v :: cells.*2) ∧ length s' = length s + 1
     ∧ same_streams s s' ∧ ∃ a, heap s !! a = None ∧ Inv s' ((a, v) :: cells))
  ∧ (∀ e s', push_front alloc v s = Throw e s' →
       e = bad_alloc ∧ s' = s ∧ alloc (heap s) = None).
Proof.
  intros HI. pose proof (push_front_spec alloc alloc_ok s cells v HI) as Hspec.
  destruct (alloc (heap s)) as [a|] eqn:Ha.
  - destruct Hspec as [Hrun HI']. split; [|intros e s' Hthrow; congruence].
    intros s' Hret. rewrite Hrun in Hret. injection Hret as <-.
    split_and!; [by rewrite (values_spec _ _ HI')|done..|].
    exists a. split; [by apply (alloc_ok _ _ Ha)|done].
  - split; [intros s' Hret; congruence|]. intros e s' Hthrow.
    rewrite Hspec in Hthrow. by injection Hthrow as <- <-.
Qed.

(** X3. When [push_back(v)] returns, the values are the old values followed
    by [v], at a node that was free before, and [length] has grown by one;
    the only exception it lets escape is [std::bad_alloc], and then the
    state is as before the call. *)
Theorem push_back_appends s cells v :
  Inv s cells →
  (∀ s', push_back alloc v s = Ret tt s' →
     values s' = Some (cells.*2 ++ [v]) ∧ length s' = length s + 1
     ∧ same_streams s s' ∧ ∃ a, heap s !! a = None ∧ Inv s' (cells ++ [(a, v)]))
  ∧ (∀ e s', push_back alloc v s = Throw e s' →
       e = bad_alloc ∧ s' = s ∧ alloc (heap s) = None).
Proof.
  intros HI. pose proof (push_back_spec alloc alloc_ok s cells v HI) as Hspec.
  destruct (alloc (heap s)) as [a|] eqn:Ha.
  - destruct Hspec as (s1 & Hrun & HI' & Hstreams & Hlen).
    split; [|intros e s' Hthrow; congruence].
    intros s' Hret. rewrite Hrun in Hret. injection Hret as <-.
    split_and!; [|done..|].
    + by rewrite (values_spec _ _ HI'), fmap_app.
    + exists a. split; [by apply (alloc_ok _ _ Ha)|done].
  - split; [intros s' Hret; congruence|]. intros e s' Hthrow.
    rewrite Hspec in Hthrow. by injection Hthrow as <- <-.
Qed.

(** X4. [insert_at(0, v)] is [push_front(v)] and [insert_at(length, v)] is
    [push_back(v)]: same outcome, same final state, also on the empty list
    where both indices coincide. *)
Theorem insert_at_ends_are_pushes s cells v :
  Inv s cells →
  insert_at alloc 0 v s = push_front alloc v s
  ∧ insert_at alloc (length s) v s = push_back alloc v s.
Proof.
  intros HI. split.
  - unfold insert_at, bind, load_length.
    assert ((length s <? 0) = false) as -> by (apply N.ltb_ge; lia). done.
  - unfold insert_at, bind, load_length. rewrite N.ltb_irrefl, N.eqb_refl.
    destruct (length s =? 0) eqn:Hzero; [|done]. apply N.eqb_eq in Hzero.
    pose proof (Inv_empty _ _ HI Hzero) as ->.
    pose proof (inv_chain _ _ HI) as Hhd. simpl in Hhd.
    unfold push_front, push_back, bind, new_node, load_head, store_next, store_head,
      incr_length, load_length, store_length, set_heap, bind.
    destruct (alloc (heap s)) as [a|]; [|done].
    cbn [heap head length cout cerr released]. rewrite lookup_insert_eq, Hhd.
    cbn [heap head length cout cerr released value]. by rewrite insert_insert_eq.
Qed.

(** X5. Whatever [insert_at] throws, the state is as before the call: it
    throws [std::out_of_range] exactly for [index > length], and
    [std::bad_alloc] only for an index in range when [new] fails ([get_node]
    runs before [new], so nothing is allocated and then lost). *)
Theorem insert_at_strong_guarantee s cells index v :
  Inv s cells →
  ∀ e s', insert_at alloc index v s = Throw e s' →
    s' = s
    ∧ ((e = out_of_range msg_index_out_of_range ∧ length s < index)
       ∨ (e = bad_alloc ∧ index ≤ length s ∧ alloc (heap s) = None)).
Proof.
  intros HI e s' Hthrow.
  pose proof (insert_at_spec alloc alloc_ok s cells index v HI) as Hspec.
  destruct (decide (length s < index)) as [Hgt|Hle].
  - rewrite Hspec in Hthrow. injection Hthrow as <- <-. split; [done|by left].
  - destruct (alloc (heap s)) as [a|] eqn:Ha.
    + destruct Hspec as (s1 & Hrun & _). congruence.
    + rewrite Hspec in Hthrow. injection Hthrow as <- <-. split; [done|].
      right. split_and!; [done|lia|done].
Qed.

(** X6. The constructor, run in any state, leaves the heap and the streams
    alone and makes a list with [size() = 0], [empty() = true], no values,
    that prints as [[] (size=0)] and on which [delete_at(0)] fails with the
    empty-list diagnostic. *)
Theorem constructor_makes_empty_list s :
  ∃ s0, LinkedList s = Ret tt s0
    ∧ heap s0 = heap s ∧ same_streams s s0
    ∧ size s0 = Ret 0 s0 ∧ empty s0 = Ret true s0
    ∧ values s0 = Some []
    ∧ print s0 = Ret tt (emit_cout ("[] (size=0)" +:+ newline) s0)
    ∧ delete_at 0 s0 = Ret false (emit_cerr err_delete_at_empty s0).
Proof.
  destruct (LinkedList_spec s) as (s0 & Hrun & HI & Hheap & Hstreams).
  exists s0. split_and!; [done..| | | | |].
  - unfold size, load_length. by rewrite (inv_count _ _ HI).
  - unfold empty, bind, load_length, ret. by rewrite (inv_count _ _ HI).
  - by rewrite (values_spec _ _ HI).
  - by rewrite (print_spec _ _ HI).
  - pose proof (delete_at_spec s0 [] 0 HI) as Hspec.
    rewrite (inv_count _ _ HI) in Hspec. simpl in Hspec. 
    destruct (decide (0 < 0)); [lia|]. done.
Qed.

(** X7. On a well-formed list [size()] is the number of values reachable
    from [head], [empty()] is [true] exactly when there is none, and that is
    exactly when [head] is [nullptr]. *)
Theorem size_and_empty_observe_values s cells :
  Inv s cells →
  values s = Some cells.*2
  ∧ size s = Ret (N.of_nat (List.length cells.*2)) s
  ∧ empty s = Ret (bool_decide (cells.*2 = [])) s
  ∧ (head s = nullptr ↔ cells.*2 = []).
Proof.
  intros HI. pose proof (inv_count _ _ HI) as Hcount.
  split_and!.
  - by apply values_spec.
  - unfold size, load_length. by rewrite length_fmap, Hcount.
  - unfold empty, bind, load_length, ret. rewrite Hcount. f_equal.
    destruct cells as [|c cells]; [done|]. by rewrite bool_decide_eq_false_2.
  - rewrite (inv_head _ _ HI), Hcount. destruct cells; [done|]. simpl. split; [lia|done].
Qed.

(** X8. [print] writes [[], the values in order separated by [ -> ],
    [] (size=], the number of values, [)] and a newline, and changes nothing
    but [std::cout]; printing twice writes the same line twice. *)
Theorem print_renders_values s cells :
  Inv s cells →
  print s = Ret tt (emit_cout (rendering cells.*2 +:+ newline) s)
  ∧ (print ;;; print) s =
      Ret tt (emit_cout ((rendering cells.*2 +:+ newline)
                         +:+ (rendering cells.*2 +:+ newline)) s)
  ∧ same_list s (emit_cout (rendering cells.*2 +:+ newline) s)
  ∧ cerr (emit_cout (rendering cells.*2 +:+ newline) s) = cerr s.
Proof.
  intros HI. split_and!; [by apply print_spec| |done..].
  unfold bind. rewrite (print_spec _ _ HI).
  rewrite (print_spec _ cells) by (by apply Inv_emit_cout).
  by rewrite emit_cout_twice.
Qed.

(** ** The list and the rest of the heap *)

Lemma framed_ext F s t cells :
  heap t = heap s → head t = head s → length t = length s →
  framed F s cells → framed F t cells.
Proof.
  intros Hh Hd Hl ([H1 H2 H3 H4 H5] & HF1 & HF2). split; [|split; [done|]].
  - split; [by rewrite Hh, Hd|by rewrite Hl|done|by rewrite Hd, Hl|done].
  - intros x Hx. rewrite Hh. by apply HF2.
Qed.

Lemma framed_grow F s s' cells cells' a :
  framed F s cells → Inv s' cells' →
  heap s !! a = None → agree_outside (a :: cells.*1) (heap s) (heap s') →
  (∀ x, x ∈ cells'.*1 ↔ x = a ∨ x ∈ cells.*1) →
  framed F s' cells'.
Proof.
  intros (HI & HF1 & HF2) HI' Hfree Hagree Hcells. split; [done|]. split.
  - intros x [->|Hx]%Hcells; [|by apply HF1].
    rewrite <- HF2; [done|]. eapply lseg_fresh; [apply HI|done].
  - intros x Hx. rewrite Hagree.
    + apply HF2. intros Hin. apply Hx, Hcells. by right.
    + apply not_elem_of_cons. split.
      * intros ->. apply Hx, Hcells. by left.
      * intros Hin. apply Hx, Hcells. by right.
Qed.

Lemma framed_shrink F s s' cells cells' a :
  framed F s cells → Inv s' cells' →
  heap s' !! a = None → agree_outside cells.*1 (heap s) (heap s') →
  (∀ x, x ∈ cells.*1 ↔ x = a ∨ x ∈ cells'.*1) →
  framed F s' cells'.
Proof.
  intros (HI & HF1 & HF2) HI' Hgone Hagree Hcells. split; [done|]. split.
  - intros x Hx. apply HF1, Hcells. by right.
  - intros x Hx. destruct (decide (x ∈ cells.*1)) as [Hin|Hnotin].
    + apply Hcells in Hin as [->|Hin]; [|done]. rewrite Hgone. symmetry.
      apply HF1, Hcells. by left.
    + rewrite Hagree by done. by apply HF2.
Qed.

Lemma framed_emit_cout F s cells t : framed F s cells → framed F (emit_cout t s) cells.
Proof. by apply framed_ext. Qed.

Lemma framed_emit_cerr F s cells t : framed F s cells → framed F (emit_cerr t s) cells.
Proof. by apply framed_ext. Qed.

Lemma elem_of_insert_middle (l : list (N * Z)) (i : nat) a v x :
  x ∈ (take i l ++ (a, v) :: drop i l).*1 ↔ x = a ∨ x ∈ l.*1.
Proof.
  rewrite <- (take_drop i l) at 3.
  rewrite !fmap_app, fmap_cons, !elem_of_app, elem_of_cons. simpl. tauto.
Qed.

Lemma elem_of_delete_middle (l : list (N * Z)) (i : nat) a v x :
  l !! i = Some (a, v) →
  x ∈ l.*1 ↔ x = a ∨ x ∈ (take i l ++ drop (S i) l).*1.
Proof.
  intros Hi. rewrite <- (take_drop_middle l i (a, v) Hi) at 1.
  rewrite !fmap_app, fmap_cons, !elem_of_app, elem_of_cons. simpl. tauto.
Qed.

Lemma push_front_framed F s cells v :
  framed F s cells →
  match alloc (heap s) with
  | Some a => ∃ s', push_front alloc v s = Ret tt s' ∧ framed F s' ((a, v) :: cells)
                    ∧ same_streams s s'
  | None => push_front alloc v s = Throw bad_alloc s
  end.
Proof.
  intros HF. pose proof HF as (HI & _).
  pose proof (push_front_spec alloc alloc_ok s cells v HI) as Hspec.
  destruct (alloc (heap s)) as [a|] eqn:Ha; [|done].
  destruct (push_front_heap s cells v a HI Ha) as (s' & Hrun & Hagree).
  destruct Hspec as [Hrun' HI']. rewrite Hrun in Hrun'. injection Hrun' as ->.
  eexists. split; [done|]. split; [|done].
  eapply (framed_grow F s _ cells _ a); [done|done|by apply (alloc_ok _ _ Ha)| |].
  - intros x Hx. apply Hagree. apply not_elem_of_cons in Hx as [Hx _].
    apply not_elem_of_cons. split; [done|apply not_elem_of_nil].
  - intros x. rewrite fmap_cons, elem_of_cons. done.
Qed.

Lemma push_back_framed F s cells v :
  framed F s cells →
  match alloc (heap s) with
  | Some a => ∃ s', push_back alloc v s = Ret tt s' ∧ framed F s' (cells ++ [(a, v)])
                    ∧ same_streams s s'
  | None => push_back alloc v s = Throw bad_alloc s
  end.
Proof.
  intros HF. pose proof HF as (HI & _).
  pose proof (push_back_spec alloc alloc_ok s cells v HI) as Hspec.
  destruct (alloc (heap s)) as [a|] eqn:Ha; [|done].
  destruct (push_back_heap s cells v a HI Ha) as (s' & Hrun & Hagree).
  destruct Hspec as (s1 & Hrun' & HI' & Hstreams & _).
  rewrite Hrun in Hrun'. injection Hrun' as <-.
  exists s'. split; [done|]. split; [|done].
  eapply (framed_grow F s _ cells _ a); [done|done|by apply (alloc_ok _ _ Ha)|done|].
  intros x. rewrite fmap_app, elem_of_app. simpl. rewrite list_elem_of_singleton. tauto.
Qed.

Lemma insert_at_framed F s cells index v :
  framed F s cells →
  if decide (length s < index)
  then insert_at alloc index v s = Throw (out_of_range msg_index_out_of_range) s
  else match alloc (heap s) with
       | Some a =>
           ∃ s', insert_at alloc index v s = Ret tt s'
                 ∧ framed F s' (take (N.to_nat index) cells ++ (a, v)
                                  :: drop (N.to_nat index) cells)
                 ∧ same_streams s s'
       | None => insert_at alloc index v s = Throw bad_alloc s
       end.
Proof.
  intros HF. pose proof HF as (HI & _).
  pose proof (insert_at_spec alloc alloc_ok s cells index v HI) as Hspec.
  destruct (decide (length s < index)) as [Hgt|Hle]; [done|].
  destruct (alloc (heap s)) as [a|] eqn:Ha; [|done].
  destruct (insert_at_heap s cells index v a HI) as (s' & Hrun & Hagree); [lia|done|].
  destruct Hspec as (s1 & Hrun' & HI' & Hstreams & _).
  rewrite Hrun in Hrun'. injection Hrun' as <-.
  exists s'. split; [done|]. split; [|done].
  eapply (framed_grow F s _ cells _ a); [done|done|by apply (alloc_ok _ _ Ha)|done|].
  intros x. apply elem_of_insert_middle.
Qed.

Lemma delete_at_framed F s cells index :
  framed F s cells →
  if decide (index < length s)
  then ∃ a av s',
         cells !! N.to_nat index = Some (a, av)
         ∧ delete_at index s = Ret true s'
         ∧ framed F s' (take (N.to_nat index) cells ++ drop (S (N.to_nat index)) cells)
         ∧ cout s' = cout s ∧ cerr s' = cerr s ∧ released s' = released s ++ [a]
  else delete_at index s =
         Ret false (emit_cerr (if length s =? 0 then err_delete_at_empty
                               else err_index_out_of_range) s).
Proof.
  intros HF. pose proof HF as (HI & _).
  pose proof (delete_at_spec s cells index HI) as Hspec.
  destruct (decide (index < length s)) as [Hlt|Hge]; [|done].
  destruct Hspec as (a & av & s1 & Hcell & Hrun' & HI' & _ & Hout & Herr & Hrel).
  destruct (delete_at_heap s cells index a av HI Hcell) as (s' & Hrun & Hgone & Hagree).
  rewrite Hrun in Hrun'. injection Hrun' as <-.
  exists a, av, s'. split_and!; [done..| |done|done|done].
  eapply (framed_shrink F s _ cells _ a); [done..|].
  intros x. by apply elem_of_delete_middle with av.
Qed.

Lemma delete_value_framed F s cells v :
  framed F s cells →
  (v ∉ cells.*2 →
   delete_value v s =
     Ret false (emit_cerr (if length s =? 0 then err_delete_value_empty
                           else info_value_not_found) s))
  ∧ (∀ pre a post, cells = pre ++ (a, v) :: post → v ∉ pre.*2 →
     ∃ s', delete_value v s = Ret true s' ∧ framed F s' (pre ++ post)
           ∧ cout s' = cout s ∧ cerr s' = cerr s ∧ released s' = released s ++ [a]).
Proof.
  intros HF. pose proof HF as (HI & _).
  destruct (delete_value_spec s cells v HI) as [Hmiss Hhit]. split; [done|].
  intros pre a post -> Hpre.
  destruct (Hhit pre a post eq_refl Hpre) as (s1 & Hrun' & HI' & _ & Hout & Herr & Hrel).
  destruct (delete_value_heap s pre a v post HI Hpre) as (s' & Hrun & Hgone & Hagree).
  rewrite Hrun in Hrun'. injection Hrun' as <-.
  exists s'. split_and!; [done| |done..].
  eapply (framed_shrink F s _ _ _ a); [done..|].
  intros x. rewrite !fmap_app, fmap_cons, !elem_of_app, elem_of_cons. simpl. tauto.
Qed.

Lemma destructor_framed F s cells :
  framed F s cells →
  ∃ depth s', destructor s = Ret depth s' ∧ heap s' = F
    ∧ released s' = released s ++ cells.*1
    ∧ cout s' = cout s ∧ cerr s' = cerr s.
Proof.
  intros (HI & HF1 & HF2). rewrite (destructor_spec s cells HI).
  eexists _, _. split; [done|]. simpl. split; [|done].
  apply map_eq. intros x. destruct (decide (x ∈ cells.*1)) as [Hin|Hnotin].
  - rewrite lookup_foldr_delete by done. symmetry. by apply HF1.
  - rewrite lookup_foldr_delete_not_elem_of by done. by apply HF2.
Qed.

(** ** Methods called on an object *)

















(** ** The driver *)

Variable bad_alloc_what : string.








(** ** Every call, and every sequence of calls *)

Lemma remove_first_absent v vs : v ∉ vs → remove_first v vs = vs.
Proof.
  induction vs as [|x vs IH]; [done|]. intros [Hne Hnotin]%not_elem_of_cons.
  simpl. rewrite decide_False by done. by rewrite IH.
Qed.

Lemma remove_first_split v pre post :
  v ∉ pre → remove_first v (pre ++ v :: post) = pre ++ post.
Proof.
  induction pre as [|x pre IH]; simpl.
  - intros _. by rewrite decide_True.
  - intros [Hne Hnotin]%not_elem_of_cons. rewrite decide_False by done. by rewrite IH.
Qed.

(** One call: the rest of the heap, the values, the effect reported and the
    number of nodes released. *)
Lemma perform_full F c s cells :
  framed F s cells →
  ∃ e s' cells', perform alloc c s = Some (e, s') ∧ framed F s' cells'
    ∧ cells'.*2 = list_step c e cells.*2
    ∧ may_report c e cells.*2
    ∧ List.length (released s')
      = (List.length (released s) + (if e is Deleted then 1 else 0))%nat.
Proof.
  intros HF. pose proof HF as (HI & _). pose proof (inv_count _ _ HI) as Hcount.
  destruct c as [v|v|index v|index|v|]; simpl.
  - pose proof (push_front_framed F s cells v HF) as Hstep.
    destruct (alloc (heap s)) as [a|].
    + destruct Hstep as (s' & -> & HF' & _ & _ & Hrel).
      eexists Inserted, _, _. split_and!; [done..|by left|rewrite Hrel; lia].
    + rewrite Hstep. eexists NoChange, _, _. split_and!; [done..|by right|simpl; lia].
  - pose proof (push_back_framed F s cells v HF) as Hstep.
    destruct (alloc (heap s)) as [a|].
    + destruct Hstep as (s' & -> & HF' & _ & _ & Hrel).
      eexists Inserted, _, _. split_and!; [done..|by rewrite fmap_app|by left|rewrite Hrel; lia].
    + rewrite Hstep. eexists NoChange, _, _. split_and!; [done..|by right|simpl; lia].
  - pose proof (insert_at_framed F s cells index v HF) as Hstep.
    rewrite length_fmap, <- Hcount.
    destruct (decide (length s < index)) as [Hgt|Hle].
    { rewrite Hstep. eexists NoChange, _, _. split_and!; [done..|simpl; lia]. }
    destruct (alloc (heap s)) as [a|].
    + destruct Hstep as (s' & -> & HF' & _ & _ & Hrel).
      eexists Inserted, _, _. split_and!; [done..| |by left|rewrite Hrel; lia].
      by rewrite fmap_app, fmap_cons, fmap_take, fmap_drop.
    + rewrite Hstep. eexists NoChange, _, _. split_and!; [done..|by right|simpl; lia].
  - pose proof (delete_at_framed F s cells index HF) as Hstep.
    rewrite length_fmap, <- Hcount.
    destruct (decide (index < length s)) as [Hlt|Hge].
    + destruct Hstep as (a & av & s' & _ & -> & HF' & _ & _ & Hrel).
      eexists Deleted, _, _. split_and!; [done..| |done|rewrite Hrel, length_app; simpl; lia].
      by rewrite fmap_app, fmap_take, fmap_drop.
    + rewrite Hstep. eexists NoChange, _, _.
      split_and!; [done|by apply framed_emit_cerr|done..|simpl; lia].
  - destruct (delete_value_framed F s cells v HF) as [Hmiss Hhit].
    destruct (decide (v ∈ cells.*2)) as [Hin|Hnotin].
    + destruct (first_occurrence _ _ Hin) as (pre & a & post & -> & Hpre).
      destruct (Hhit pre a post eq_refl Hpre) as (s' & -> & HF' & _ & _ & Hrel).
      eexists Deleted, _, _. split_and!; [done..| |done|rewrite Hrel, length_app; simpl; lia].
      rewrite !fmap_app, fmap_cons. simpl. by rewrite remove_first_split.
    + rewrite (Hmiss Hnotin). eexists NoChange, _, _.
      split_and!; [done|by apply framed_emit_cerr|done..|simpl; lia].
  - rewrite (print_spec s cells HI). eexists NoChange, _, _.
    split_and!; [done|by apply framed_emit_cout|done..|simpl; lia].
Qed.

Lemma run_framed F cs t s cells :
  framed F s cells →
  ∃ t' s' cells', run alloc cs t s = Some (t', s') ∧ framed F s' cells'
    ∧ (insertions t' + deletions t + List.length cells
       = insertions t + deletions t' + List.length cells')%nat
    ∧ (List.length (released s') + deletions t
       = List.length (released s) + deletions t')%nat.
Proof.
  revert t s cells. induction cs as [|c cs IH]; intros t s cells HF; simpl.
  - by exists t, s, cells.
  - destruct (perform_full F c s cells HF) as (e & s1 & cells1 & Hrun & HF1 & _ & _ & Hrel).
    destruct HF as (HI & _). pose proof HF1 as (HI1 & _).
    destruct (perform_spec alloc alloc_ok c s cells HI) as (e' & s1' & cells1' & Hrun' & HI1' & Hlen).
    rewrite Hrun in Hrun'. injection Hrun' as <- <-.
    assert (List.length cells1' = List.length cells1) as Hsame.
    { pose proof (inv_count _ _ HI1). pose proof (inv_count _ _ HI1'). lia. }
    rewrite Hrun.
    destruct (IH (count e t) s1 cells1 HF1) as (t' & s' & cells' & -> & HF' & Hbal & Hrel').
    exists t', s', cells'. split_and!; [done..| |]; destruct e; simpl in *; lia.
Qed.

Lemma framed_self s cells :
  Inv s cells → framed (foldr delete (heap s) cells.*1) s cells.
Proof.
  intros HI. split; [done|]. split.
  - intros x Hx. by apply lookup_foldr_delete.
  - intros x Hx. symmetry. by apply lookup_foldr_delete_not_elem_of.
Qed.

Lemma lseg_agree h h' p q cells :
  (∀ x, x ∈ cells.*1 → h' !! x = h !! x) → lseg h p q cells → lseg h' p q cells.
Proof.
  revert p. induction cells as [|[a v] cells IH]; intros p Hagree; simpl; [done|].
  intros (-> & Ha0 & nx & Hnx & Hrest). split_and!; [done..|]. exists nx. split.
  - rewrite Hagree; [done|]. apply list_elem_of_here.
  - apply IH; [|done]. intros x Hx. apply Hagree. by apply list_elem_of_further.
Qed.

(** X9. A call touches only the nodes of its list and fresh memory, and
    what it unlinks it releases: when the heap outside the list is [F] before
    a public call, it is [F] after it, whatever the call and its outcome.  A
    call releases one node when it reports a deletion and none otherwise.
    In a heap that holds nothing but the list, the number of allocated nodes
    is [length] after every call: no node is leaked. *)
Theorem calls_keep_the_rest_of_the_heap F s cells c :
  framed F s cells →
  ∃ e s' cells', perform alloc c s = Some (e, s') ∧ framed F s' cells'
    ∧ List.length (released s')
      = (List.length (released s) + (if e is Deleted then 1 else 0))%nat
    ∧ (F = ∅ → base.size (heap s') = N.to_nat (length s')).
Proof.
  intros HF. destruct (perform_full F c s cells HF) as (e & s' & cells' & Hrun & HF' & _ & _ & Hrel).
  exists e, s', cells'. split_and!; [done..|]. intros ->.
  destruct HF' as (HI' & HF1 & HF2).
  rewrite (inv_count _ _ HI'), Nat2N.id, <- (length_fmap fst cells').
  rewrite <- (size_dom (D:=gset N)), <- (size_list_to_set (C:=gset N) cells'.*1)
    by apply HI'.
  f_equal. apply set_eq. intros x. rewrite elem_of_dom, elem_of_list_to_set. split.
  - intros [nd Hnd]. destruct (decide (x ∈ cells'.*1)) as [|Hnotin]; [done|].
    rewrite (HF2 x Hnotin), lookup_empty in Hnd. done.
  - intros Hx. by eapply lseg_allocated; [apply HI'|].
Qed.

(** X10. Two lists in one heap do not disturb each other: a public call on
    one list leaves every node of another list, disjoint from it, as it was,
    so the other list keeps its invariants and its values. *)
Theorem other_list_untouched s cells o other c :
  Inv s cells → Inv (set_this o s) other →
  (∀ x, x ∈ other.*1 → x ∉ cells.*1) →
  ∃ e s', perform alloc c s = Some (e, s')
    ∧ Inv (set_this o s') other
    ∧ values (set_this o s') = Some other.*2
    ∧ (∀ x, x ∈ other.*1 → heap s' !! x = heap s !! x).
Proof.
  intros HI HO Hdisj.
  destruct (perform_full _ c s cells (framed_self s cells HI))
    as (e & s' & cells' & Hrun & (HI' & HF1 & HF2) & _).
  assert (∀ x, x ∈ other.*1 → heap s' !! x = heap s !! x) as Hagree.
  { intros x Hx. pose proof (Hdisj x Hx) as Hxc.
    destruct (lseg_allocated _ _ _ _ _ (inv_chain _ _ HO) Hx) as [_ [nd Hnd]].
    simpl in Hnd.
    assert (x ∉ cells'.*1) as Hxc'.
    { intros Hin. apply HF1 in Hin.
      rewrite lookup_foldr_delete_not_elem_of in Hin by done. congruence. }
    rewrite (HF2 x Hxc'). by apply lookup_foldr_delete_not_elem_of. }
  assert (Inv (set_this o s') other) as HO'.
  { destruct HO as [H1 H2 H3 H4 H5]. split; try done.
    simpl in *. by apply (lseg_agree (heap s)). }
  exists e, s'. split_and!; [done..| |done]. by apply values_spec.
Qed.

(** X11. A whole lifetime: construct a list in any state, issue any
    sequence of public calls (exceptions caught), destroy it.  The heap is
    then exactly the heap before the constructor, and the number of nodes
    released is the number of successful insertions. *)
Theorem lifetime_of_a_list_frees_every_node s cs :
  ∃ s0 t s1 depth s2,
    LinkedList s = Ret tt s0
    ∧ run alloc cs (mkTally 0 0) s0 = Some (t, s1)
    ∧ destructor s1 = Ret depth s2
    ∧ heap s2 = heap s
    ∧ List.length (released s2) = (List.length (released s) + insertions t)%nat.
Proof.
  destruct (LinkedList_spec s) as (s0 & Hctor & HI0 & Hheap & _ & _ & Hrel0).
  assert (framed (heap s) s0 []) as HF0.
  { split; [done|]. split; [intros x Hx; by apply elem_of_nil in Hx|].
    intros x _. by rewrite Hheap. }
  destruct (run_framed (heap s) cs (mkTally 0 0) s0 [] HF0)
    as (t & s1 & cells1 & Hrun & HF1 & Hbal & Hrel1).
  destruct (destructor_framed (heap s) s1 cells1 HF1)
    as (depth & s2 & Hdtor & Hheap2 & Hrel2 & _).
  exists s0, t, s1, depth, s2. split_and!; [done..|].
  rewrite Hrel2, length_app, length_fmap. simpl in *. rewrite Hrel0 in Hrel1. lia.
Qed.

(** X12. Any sequence of public calls acts on the values as the same
    sequence of list operations: prepend, append, insert at an index, remove
    at an index, remove the first occurrence.  A deletion succeeds exactly
    when the model says so; an insertion in range fails only when [new]
    fails.  The state stays well-formed. *)
Theorem calls_follow_the_list_model cs s cells :
  Inv s cells →
  ∃ es s' vs', run_trace alloc cs s = Some (es, s')
    ∧ values s' = Some vs'
    ∧ list_run cs es cells.*2 = Some vs'
    ∧ well_formed s'.
Proof.
  revert s cells. induction cs as [|c cs IH]; intros s cells HI; simpl.
  - exists [], s, cells.*2. split_and!; [done|by apply values_spec|done|by exists cells].
  - destruct (perform_full _ c s cells (framed_self s cells HI))
      as (e & s1 & cells1 & -> & (HI1 & _) & Hstep & Hmay & _).
    destruct (IH s1 cells1 HI1) as (es & s' & vs' & -> & Hvals & Hlist & Hwf).
    exists (e :: es), s', vs'. split_and!; [done..| |done].
    simpl. rewrite decide_True by done. by rewrite <- Hstep.
Qed.

(** X13. [insert_at(index, v)] followed by [delete_at(index)]: the deletion
    returns [true] and the list has the nodes, values and [length] it had
    before the two calls. *)
Theorem insert_at_then_delete_at s cells index v :
  Inv s cells →
  ∀ s1, insert_at alloc index v s = Ret tt s1 →
  ∃ s2, delete_at index s1 = Ret true s2
    ∧ Inv s2 cells ∧ values s2 = values s ∧ length s2 = length s.
Proof.
  intros HI s1 Hins. pose proof (inv_count _ _ HI) as Hcount.
  pose proof (insert_at_spec alloc alloc_ok s cells index v HI) as Hspec.
  destruct (decide (length s < index)) as [Hgt|Hle]; [congruence|].
  destruct (alloc (heap s)) as [a|]; [|congruence].
  destruct Hspec as (s1' & Hrun & HI1 & _ & Hlen1).
  rewrite Hrun in Hins. injection Hins as ->.
  pose proof (delete_at_spec s1 _ index HI1) as Hdel.
  destruct (decide (index < length s1)) as [_|Hge]; [|lia].
  destruct Hdel as (a' & av' & s2 & _ & Hrun2 & HI2 & Hlen2 & _).
  assert (List.length (take (N.to_nat index) cells) = N.to_nat index) as Htake
    by (rewrite length_take; lia).
  rewrite take_app_length' in HI2 by done.
  rewrite (cons_middle (a, v)), app_assoc, drop_app_length' in HI2
    by (rewrite length_app; simpl; lia).
  rewrite take_drop in HI2.
  exists s2. split_and!; [done..| |lia].
  by rewrite (values_spec _ _ HI2), (values_spec _ _ HI).
Qed.

(** X14. [delete_at(index)] followed by [insert_at(index, v)], with [v] the
    value that was at [index]: the values and [length] are those before the
    two calls (the node is a new one). *)
Theorem delete_at_then_insert_at s cells index a v :
  Inv s cells → cells !! N.to_nat index = Some (a, v) →
  ∃ s1, delete_at index s = Ret true s1
    ∧ ∀ s2, insert_at alloc index v s1 = Ret tt s2 →
        values s2 = values s ∧ length s2 = length s ∧ well_formed s2.
Proof.
  intros HI Hcell. pose proof (inv_count _ _ HI) as Hcount.
  apply lookup_lt_Some in Hcell as Hlt.
  pose proof (delete_at_spec s cells index HI) as Hdel.
  destruct (decide (index < length s)) as [_|Hge]; [|lia].
  destruct Hdel as (a' & av' & s1 & _ & Hrun1 & HI1 & Hlen1 & _).
  exists s1. split; [done|]. intros s2 Hins.
  pose proof (insert_at_spec alloc alloc_ok s1 _ index v HI1) as Hspec.
  destruct (decide (length s1 < index)) as [Hgt|Hle]; [congruence|].
  destruct (alloc (heap s1)) as [b|]; [|congruence].
  destruct Hspec as (s2' & Hrun2 & HI2 & _ & Hlen2).
  rewrite Hrun2 in Hins. injection Hins as ->.
  assert (List.length (take (N.to_nat index) cells) = N.to_nat index) as Htake
    by (rewrite length_take; lia).
  rewrite take_app_length', drop_app_length' in HI2 by done.
  split_and!; [|lia|by eexists].
  rewrite (values_spec _ _ HI2), (values_spec _ _ HI). f_equal.
  rewrite fmap_app, fmap_cons, fmap_take, fmap_drop. simpl.
  apply take_drop_middle. by rewrite list_lookup_fmap, Hcell.
Qed.

(** X15. [push_front(v)] followed by [delete_value(v)] removes the node just
    pushed, not a later node with the same value: the list has the nodes,
    values and [length] it had before. *)
Theorem push_front_then_delete_value s cells v :
  Inv s cells →
  ∀ s1, push_front alloc v s = Ret tt s1 →
  ∃ s2, delete_value v s1 = Ret true s2
    ∧ Inv s2 cells ∧ values s2 = values s ∧ length s2 = length s.
Proof.
  intros HI s1 Hpush. pose proof (push_front_spec alloc alloc_ok s cells v HI) as Hspec.
  destruct (alloc (heap s)) as [a|]; [|congruence].
  destruct Hspec as [Hrun HI1]. rewrite Hrun in Hpush. injection Hpush as <-.
  destruct (delete_value_spec _ _ v HI1) as [_ Hhit].
  destruct (Hhit [] a cells eq_refl) as (s2 & Hrun2 & HI2 & Hlen2 & _).
  { apply not_elem_of_nil. }
  exists s2. split_and!; [done..| |].
  - by rewrite (values_spec _ _ HI2), (values_spec _ _ HI).
  - rewrite Hlen2. simpl. lia.
Qed.

(** One call: which cells stay, and what is written. *)
Lemma perform_shape c s cells :
  Inv s cells →
  ∃ e s' cells', perform alloc c s = Some (e, s') ∧ Inv s' cells'
    ∧ (if e is Inserted then cells `sublist_of` cells' else cells' `sublist_of` cells)
    ∧ cout s' = (if c is Print then cout s +:+ (rendering cells.*2 +:+ newline)
                 else cout s)
    ∧ match c, e with
      | DeleteAt _, NoChange | DeleteValue _, NoChange =>
          ∃ d, cerr s' = cerr s +:+ d ∧ is_Some (category_of d)
      | _, _ => cerr s' = cerr s
      end.
Proof.
  intros HI. destruct c as [v|v|index v|index|v|]; simpl.
  - pose proof (push_front_spec alloc alloc_ok s cells v HI) as Hspec.
    destruct (alloc (heap s)) as [a|].
    + destruct Hspec as [-> HI']. eexists Inserted, _, _.
      split_and!; [done..|by apply sublist_cons|done|done].
    + rewrite Hspec. by eexists NoChange, _, _.
  - pose proof (push_back_spec alloc alloc_ok s cells v HI) as Hspec.
    destruct (alloc (heap s)) as [a|].
    + destruct Hspec as (s' & -> & HI' & (Hout & Herr & _) & _). eexists Inserted, _, _.
      split_and!; [done..|by apply sublist_inserts_r|done|done].
    + rewrite Hspec. by eexists NoChange, _, _.
  - pose proof (insert_at_spec alloc alloc_ok s cells index v HI) as Hspec.
    destruct (decide (length s < index)) as [Hgt|Hle].
    { rewrite Hspec. by eexists NoChange, _, _. }
    destruct (alloc (heap s)) as [a|].
    + destruct Hspec as (s' & -> & HI' & (Hout & Herr & _) & _). eexists Inserted, _, _.
      split_and!; [done..| |done|done].
      rewrite <- (take_drop (N.to_nat index) cells) at 1.
      apply sublist_app; [done|]. by apply sublist_cons.
    + rewrite Hspec. by eexists NoChange, _, _.
  - pose proof (delete_at_spec s cells index HI) as Hspec.
    destruct (decide (index < length s)) as [Hlt|Hge].
    + destruct Hspec as (a & av & s' & _ & -> & HI' & _ & Hout & Herr & _).
      eexists Deleted, _, _. split_and!; [done..| |done|done].
      rewrite <- delete_take_drop. apply sublist_delete.
    + rewrite Hspec. eexists NoChange, _, _.
      split_and!; [done|by apply Inv_emit_cerr|done|done|].
      simpl. eexists. split; [done|]. by destruct (length s =? 0).
  - destruct (delete_value_spec s cells v HI) as [Hmiss Hhit].
    destruct (decide (v ∈ cells.*2)) as [Hin|Hnotin].
    + destruct (first_occurrence _ _ Hin) as (pre & a & post & -> & Hpre).
      destruct (Hhit pre a post eq_refl Hpre) as (s' & -> & HI' & _ & Hout & Herr & _).
      eexists Deleted, _, _. split_and!; [done..| |done|done].
      apply sublist_app; [done|]. by apply sublist_cons.
    + rewrite (Hmiss Hnotin). eexists NoChange, _, _.
      split_and!; [done|by apply Inv_emit_cerr|done|done|].
      simpl. eexists. split; [done|]. by destruct (length s =? 0).
  - rewrite (print_spec s cells HI). eexists NoChange, _, _.
    split_and!; [done|by apply Inv_emit_cout|done..].
Qed.

(** X17. No call moves a node: after an insertion the old cells (address
    and value) are a subsequence of the new ones, after any other call the
    new cells are a subsequence of the old ones. *)
Theorem nodes_never_move c s cells :
  Inv s cells →
  ∃ e s' cells', perform alloc c s = Some (e, s') ∧ Inv s' cells'
    ∧ (if e is Inserted then cells `sublist_of` cells' else cells' `sublist_of` cells).
Proof.
  intros HI.
  destruct (perform_shape c s cells HI) as (e & s' & cells' & Hrun & HI' & Hsub & _).
  by exists e, s', cells'.
Qed.

(** X18. Only [print] writes to [std::cout], and it writes the rendering of
    the list; [std::cerr] gets a diagnostic, of one of the three categories,
    exactly from a [delete_at] or [delete_value] that fails, and nothing
    from any other call. *)
Theorem diagnostics_only_on_failure c s cells :
  Inv s cells →
  ∃ e s', perform alloc c s = Some (e, s')
    ∧ cout s' = (if c is Print then cout s +:+ (rendering cells.*2 +:+ newline)
                 else cout s)
    ∧ match c, e with
      | DeleteAt _, NoChange | DeleteValue _, NoChange =>
          ∃ d, cerr s' = cerr s +:+ d ∧ is_Some (category_of d)
      | _, _ => cerr s' = cerr s
      end.
Proof.
  intros HI.
  destruct (perform_shape c s cells HI) as (e & s' & cells' & Hrun & _ & _ & Hout & Herr).
  by exists e, s'.
Qed.

End Further.

(** ** Further sample facts *)

Lemma framed_sample : framed ∅ sample sample_cells.
Proof.
  split; [apply Inv_sample|]. split.
  - intros x _. apply lookup_empty.
  - intros x Hx. simpl in Hx. rewrite !not_elem_of_cons in Hx.
    destruct Hx as (H3 & H1 & H2 & _). unfold sample. simpl.
    by rewrite !lookup_insert_ne.
Qed.

Lemma Inv_shared : Inv shared sample_cells.
Proof.
  apply Inv_intro.
  - simpl. repeat (split; [done|]). eexists. split; [by vm_compute|].
    repeat (split; [done|]). eexists. split; [by vm_compute|].
    repeat (split; [done|]). eexists. split; [by vm_compute|]. done.
  - done.
  - apply (bool_decide_unpack _). by vm_compute.
  - apply (bool_decide_unpack _). by vm_compute.
Qed.

Lemma Inv_shared_other : Inv (set_this other_list shared) other_cells.
Proof.
  apply Inv_intro.
  - simpl. repeat (split; [done|]). eexists. split; [by vm_compute|].
    repeat (split; [done|]). eexists. split; [by vm_compute|]. done.
  - done.
  - apply (bool_decide_unpack _). by vm_compute.
  - apply (bool_decide_unpack _). by vm_compute.
Qed.

Lemma shared_disjoint : ∀ x, x ∈ other_cells.*1 → x ∉ sample_cells.*1.
Proof.
  intros x Hx Hx'. simpl in Hx, Hx'.
  rewrite !elem_of_cons in Hx. rewrite !elem_of_cons in Hx'.
  destruct Hx as [->|[->|Hx]]; [| |by apply elem_of_nil in Hx];
    (destruct Hx' as [?|[?|[?|Hx']]]; [done|done|done|by apply elem_of_nil in Hx']).
Qed.

(** ** The further properties on the sample states *)

Lemma get_node_bounds_witness :
  (Inv sample sample_cells)
  ∧ ((length sample ≤ 1 →
      get_node 1 sample = Throw (out_of_range msg_index_out_of_range) sample)
     ∧ (1 < length sample →
        ∃ a v nx, get_node 1 sample = Ret a sample
          ∧ sample_cells !! N.to_nat 1 = Some (a, v)
          ∧ heap sample !! a = Some (mkNode v nx)
          ∧ ∃ vs, values sample = Some vs ∧ vs !! N.to_nat 1 = Some v)).
Proof.
  split; [exact Inv_sample|].
  exact (get_node_bounds sample sample_cells 1 Inv_sample).
Defined.

Lemma push_front_prepends_witness :
  (allocator_ok pick_free)
  ∧ (Inv sample sample_cells)
  ∧ ((∀ s', push_front pick_free 7%Z sample = Ret tt s' →
        values s' = Some (7%Z :: sample_cells.*2) ∧ length s' = length sample + 1
        ∧ same_streams sample s' ∧ ∃ a, heap sample !! a = None ∧ Inv s' ((a, 7%Z) :: sample_cells))
     ∧ (∀ e s', push_front pick_free 7%Z sample = Throw e s' →
          e = bad_alloc ∧ s' = sample ∧ pick_free (heap sample) = None)).
Proof.
  split; [exact pick_free_ok|].
  split; [exact Inv_sample|].
  exact (push_front_prepends pick_free pick_free_ok sample sample_cells 7%Z Inv_sample).
Defined.

Lemma push_back_appends_witness :
  (allocator_ok pick_free)
  ∧ (Inv sample sample_cells)
  ∧ ((∀ s', push_back pick_free 7%Z sample = Ret tt s' →
        values s' = Some (sample_cells.*2 ++ [7%Z]) ∧ length s' = length sample + 1
        ∧ same_streams sample s' ∧ ∃ a, heap sample !! a = None ∧ Inv s' (sample_cells ++ [(a, 7%Z)]))
     ∧ (∀ e s', push_back pick_free 7%Z sample = Throw e s' →
          e = bad_alloc ∧ s' = sample ∧ pick_free (heap sample) = None)).
Proof.
  split; [exact pick_free_ok|].
  split; [exact Inv_sample|].
  exact (push_back_appends pick_free pick_free_ok sample sample_cells 7%Z Inv_sample).
Defined.

Lemma insert_at_ends_are_pushes_witness :
  (Inv sample sample_cells)
  ∧ (insert_at pick_free 0 7%Z sample = push_front pick_free 7%Z sample
     ∧ insert_at pick_free (length sample) 7%Z sample = push_back pick_free 7%Z sample).
Proof.
  split; [exact Inv_sample|].
  exact (insert_at_ends_are_pushes pick_free sample sample_cells 7%Z Inv_sample).
Defined.

Lemma insert_at_strong_guarantee_witness :
  (allocator_ok pick_free)
  ∧ (Inv sample sample_cells)
  ∧ (∀ e s', insert_at pick_free 4 7%Z sample = Throw e s' →
       s' = sample
       ∧ ((e = out_of_range msg_index_out_of_range ∧ length sample < 4)
          ∨ (e = bad_alloc ∧ 4 ≤ length sample ∧ pick_free (heap sample) = None))).
Proof.
  split; [exact pick_free_ok|].
  split; [exact Inv_sample|].
  exact (insert_at_strong_guarantee pick_free pick_free_ok sample sample_cells 4 7%Z Inv_sample).
Defined.

Lemma size_and_empty_observe_values_witness :
  (Inv sample sample_cells)
  ∧ (values sample = Some sample_cells.*2
     ∧ size sample = Ret (N.of_nat (List.length sample_cells.*2)) sample
     ∧ empty sample = Ret (bool_decide (sample_cells.*2 = [])) sample
     ∧ (head sample = nullptr ↔ sample_cells.*2 = [])).
Proof.
  split; [exact Inv_sample|].
  exact (size_and_empty_observe_values sample sample_cells Inv_sample).
Defined.

Lemma print_renders_values_witness :
  (Inv sample sample_cells)
  ∧ (print sample = Ret tt (emit_cout (rendering sample_cells.*2 +:+ newline) sample)
     ∧ (print ;;; print) sample =
         Ret tt (emit_cout ((rendering sample_cells.*2 +:+ newline)
                            +:+ (rendering sample_cells.*2 +:+ newline)) sample)
     ∧ same_list sample (emit_cout (rendering sample_cells.*2 +:+ newline) sample)
     ∧ cerr (emit_cout (rendering sample_cells.*2 +:+ newline) sample) = cerr sample).
Proof.
  split; [exact Inv_sample|].
  exact (print_renders_values sample sample_cells Inv_sample).
Defined.

Lemma calls_keep_the_rest_of_the_heap_witness :
  (allocator_ok pick_free)
  ∧ (framed (∅ : gmap N Node) sample sample_cells)
  ∧ (∃ e s' cells', perform pick_free (DeleteAt 1) sample = Some (e, s') ∧ framed (∅ : gmap N Node) s' cells'
       ∧ List.length (released s')
         = (List.length (released sample) + (if e is Deleted then 1 else 0))%nat
       ∧ ((∅ : gmap N Node) = ∅ → base.size (heap s') = N.to_nat (length s'))).
Proof.
  split; [exact pick_free_ok|].
  split; [exact framed_sample|].
  exact (calls_keep_the_rest_of_the_heap pick_free pick_free_ok (∅ : gmap N Node) sample sample_cells (DeleteAt 1) framed_sample).
Defined.

Lemma other_list_untouched_witness :
  (allocator_ok pick_free)
  ∧ (Inv shared sample_cells)
  ∧ (Inv (set_this other_list shared) other_cells)
  ∧ (∀ x, x ∈ other_cells.*1 → x ∉ sample_cells.*1)
  ∧ (∃ e s', perform pick_free (DeleteAt 1) shared = Some (e, s')
       ∧ Inv (set_this other_list s') other_cells
       ∧ values (set_this other_list s') = Some other_cells.*2
       ∧ (∀ x, x ∈ other_cells.*1 → heap s' !! x = heap shared !! x)).
Proof.
  split; [exact pick_free_ok|].
  split; [exact Inv_shared|].
  split; [exact Inv_shared_other|].
  split; [exact shared_disjoint|].
  exact (other_list_untouched pick_free pick_free_ok shared sample_cells other_list other_cells (DeleteAt 1) Inv_shared Inv_shared_other shared_disjoint).
Defined.

Lemma lifetime_of_a_list_frees_every_node_witness :
  (allocator_ok pick_free)
  ∧ (∃ s0 t s1 depth s2,
       LinkedList start = Ret tt s0
       ∧ run pick_free sample_calls (mkTally 0 0) s0 = Some (t, s1)
       ∧ destructor s1 = Ret depth s2
       ∧ heap s2 = heap start
       ∧ List.length (released s2) = (List.length (released start) + insertions t)%nat).
Proof.
  split; [exact pick_free_ok|].
  exact (lifetime_of_a_list_frees_every_node pick_free pick_free_ok start sample_calls).
Defined.

Lemma calls_follow_the_list_model_witness :
  (allocator_ok pick_free)
  ∧ (Inv sample sample_cells)
  ∧ (∃ es s' vs', run_trace pick_free sample_calls sample = Some (es, s')
       ∧ values s' = Some vs'
       ∧ list_run sample_calls es sample_cells.*2 = Some vs'
       ∧ well_formed s').
Proof.
  split; [exact pick_free_ok|].
  split; [exact Inv_sample|].
  exact (calls_follow_the_list_model pick_free pick_free_ok sample_calls sample sample_cells Inv_sample).
Defined.

Lemma insert_at_then_delete_at_witness :
  (allocator_ok pick_free)
  ∧ (Inv sample sample_cells)
  ∧ (∀ s1, insert_at pick_free 1 7%Z sample = Ret tt s1 →
     ∃ s2, delete_at 1 s1 = Ret true s2
       ∧ Inv s2 sample_cells ∧ values s2 = values sample ∧ length s2 = length sample).
Proof.
  split; [exact pick_free_ok|].
  split; [exact Inv_sample|].
  exact (insert_at_then_delete_at pick_free pick_free_ok sample sample_cells 1 7%Z Inv_sample).
Defined.

Lemma delete_at_then_insert_at_witness :
  (allocator_ok pick_free)
  ∧ (Inv sample sample_cells)
  ∧ (sample_cells !! N.to_nat 1 = Some (1, 10%Z))
  ∧ (∃ s1, delete_at 1 sample = Ret true s1
       ∧ ∀ s2, insert_at pick_free 1 10%Z s1 = Ret tt s2 →
           values s2 = values sample ∧ length s2 = length sample ∧ well_formed s2).
Proof.
  split; [exact pick_free_ok|].
  split; [exact Inv_sample|].
  split; [exact eq_refl|].
  exact (delete_at_then_insert_at pick_free pick_free_ok sample sample_cells 1 1 10%Z Inv_sample eq_refl).
Defined.

Lemma push_front_then_delete_value_witness :
  (allocator_ok pick_free)
  ∧ (Inv sample sample_cells)
  ∧ (∀ s1, push_front pick_free 10%Z sample = Ret tt s1 →
     ∃ s2, delete_value 10%Z s1 = Ret true s2
       ∧ Inv s2 sample_cells ∧ values s2 = values sample ∧ length s2 = length sample).
Proof.
  split; [exact pick_free_ok|].
  split; [exact Inv_sample|].
  exact (push_front_then_delete_value pick_free pick_free_ok sample sample_cells 10%Z Inv_sample).
Defined.


Lemma nodes_never_move_witness :
  (allocator_ok pick_free)
  ∧ (Inv sample sample_cells)
  ∧ (∃ e s' cells', perform pick_free (InsertAt 1 7) sample = Some (e, s') ∧ Inv s' cells'
       ∧ (if e is Inserted then sample_cells `sublist_of` cells' else cells' `sublist_of` sample_cells)).
Proof.
  split; [exact pick_free_ok|].
  split; [exact Inv_sample|].
  exact (nodes_never_move pick_free pick_free_ok (InsertAt 1 7) sample sample_cells Inv_sample).
Defined.

Lemma diagnostics_only_on_failure_witness :
  (allocator_ok pick_free)
  ∧ (Inv sample sample_cells)
  ∧ (∃ e s', perform pick_free (DeleteAt 5) sample = Some (e, s')
       ∧ cout s' = (if (DeleteAt 5) is Print then cout sample +:+ (rendering sample_cells.*2 +:+ newline)
                    else cout sample)
       ∧ match (DeleteAt 5), e with
         | DeleteAt _, NoChange | DeleteValue _, NoChange =>
             ∃ d, cerr s' = cerr sample +:+ d ∧ is_Some (category_of d)
         | _, _ => cerr s' = cerr sample
         end).
Proof.
  split; [exact pick_free_ok|].
  split; [exact Inv_sample|].
  exact (diagnostics_only_on_failure pick_free pick_free_ok (DeleteAt 5) sample sample_cells Inv_sample).
Defined.

End LinkedList.
